(** * MacroManager: keyboard macro registry and dispatcher

    A shallow embedding of [src/index.ts] and the properties of its
    registry, its listener management and its key-down dispatch.

    Conventions of the embedding:
    - JavaScript objects that are shared by reference (the macro records
      held by the [Map]) live in a heap and are named by locations;
    - the [Map<string, RegisteredMacro>] is an association list in
      insertion order, which is the order a JavaScript [Map] iterates in;
    - a method is a computation over the program state that completes
      normally or throws;
    - calls on the host ([console.log], [console.error],
      [event.preventDefault], [event.stopPropagation]) and the calls of
      macro actions are recorded, in order, in the state's list of effects;
    - a macro action is a host callback: it acts on the host's own state
      and returns or throws.  Actions that call back into the manager
      while a dispatch is running are outside this model. *)

From Stdlib Require Import String Ascii List Bool Arith Lia.
From stdpp Require Import base decidable option list strings.
Import ListNotations.

Local Open Scope string_scope.
Local Open Scope list_scope.

(** ** Values of the language *)

(** The double quote character of the template literals. *)
Definition dquote : string := String (ascii_of_nat 34) EmptyString.

(** [!!v] for a property of type [boolean | undefined]. *)
Definition truthy (v : option bool) : bool :=
  match v with
  | Some b => b
  | None => false
  end.

(** A property of an object literal: the key is left out, or it is there
    with a value (which may itself be [undefined] where the type allows). *)
Inductive Field (A : Type) : Type :=
| Omitted
| Supplied (v : A).
Arguments Omitted {A}.
Arguments Supplied {A} v.

(** The value a thrown [new Error(message)] carries. *)
Inductive JsError : Type :=
| Error (message : string).

#[global] Instance JsError_eq_dec : EqDecision JsError.
Proof. solve_decision. Defined.

(** How a call ends. *)
Inductive Completion (A : Type) : Type :=
| Normal (a : A)
| Throw (e : JsError).
Arguments Normal {A} a.
Arguments Throw {A} e.

(** [Array.prototype.includes] on strings. *)
Definition includes (xs : list string) (x : string) : bool :=
  existsb (String.eqb x) xs.

(** ** Types of [index.ts] *)

Module KeyCombo.
Record t : Type := {
  key : string;
  ctrl : option bool;
  alt : option bool;
  shift : option bool;
  meta : option bool
}.
End KeyCombo.

(** The handler reads [event.target] as an [HTMLElement], of which it
    uses the tag name. *)
Record HTMLElement : Type := { tagName : string }.

Module KeyboardEvent.
Record t : Type := {
  key : string;
  ctrlKey : bool;
  altKey : bool;
  shiftKey : bool;
  metaKey : bool;
  target : HTMLElement
}.
End KeyboardEvent.

(** [MacroManagerOptions] as stored in [this.options]: every property is
    [boolean | undefined]. *)
Record MacroManagerOptions : Type := {
  preventDefault : option bool;
  stopPropagation : option bool;
  debug : option bool
}.

(** The object literal handed to the constructor. *)
Record OptionsLiteral : Type := {
  lit_preventDefault : Field (option bool);
  lit_stopPropagation : Field (option bool);
  lit_debug : Field (option bool)
}.

(** Locations of macro records, and identities of function objects
    handed to [addEventListener]. *)
Abbreviation loc := nat (only parsing).
Abbreviation fnref := nat (only parsing).

(** What the host observes, in the order it happens. *)
Inductive Effect : Type :=
| ConsoleLog (msg : string)
| ConsoleError (msg : string) (error : JsError)
| EventPreventDefault
| EventStopPropagation
| Invoke (l : loc).

#[global] Instance Effect_eq_dec : EqDecision Effect.
Proof. solve_decision. Defined.

(** [getComboKey]: the label of a chord. *)
Definition getComboKey (combo : KeyCombo.t) : string :=
  (if truthy (KeyCombo.ctrl combo) then "Ctrl+" else EmptyString) ++
  (if truthy (KeyCombo.alt combo) then "Alt+" else EmptyString) ++
  (if truthy (KeyCombo.shift combo) then "Shift+" else EmptyString) ++
  (if truthy (KeyCombo.meta combo) then "Meta+" else EmptyString) ++
  KeyCombo.key combo.

(** ** The insertion-ordered [Map] *)

Section JsMap.
Context {V : Type}.

Fixpoint Map_get (k : string) (m : list (string * V)) : option V :=
  match m with
  | [] => None
  | (k', v) :: m' => if String.eqb k k' then Some v else Map_get k m'
  end.

Definition Map_has (k : string) (m : list (string * V)) : bool :=
  match Map_get k m with
  | Some _ => true
  | None => false
  end.

(** [set] keeps the position of a key that is already there and appends
    a new one. *)
Fixpoint Map_set (k : string) (v : V) (m : list (string * V)) : list (string * V) :=
  match m with
  | [] => [(k, v)]
  | (k', v') :: m' =>
      if String.eqb k k' then (k', v) :: m' else (k', v') :: Map_set k v m'
  end.

Fixpoint Map_delete (k : string) (m : list (string * V)) : list (string * V) :=
  match m with
  | [] => []
  | (k', v') :: m' =>
      if String.eqb k k' then m' else (k', v') :: Map_delete k m'
  end.

Definition Map_values (m : list (string * V)) : list V := map snd m.

Definition Map_keys (m : list (string * V)) : list string := map fst m.
End JsMap.

(** ** The host's listener list for ["keydown"] on [document] *)

(** [addEventListener] does not add a callback that is already there. *)
Definition addEventListener (f : fnref) (ls : list fnref) : list fnref :=
  if existsb (Nat.eqb f) ls then ls else ls ++ [f].

Fixpoint removeEventListener (f : fnref) (ls : list fnref) : list fnref :=
  match ls with
  | [] => []
  | g :: ls' => if Nat.eqb f g then ls' else g :: removeEventListener f ls'
  end.

(** A function object made by [bind] is new: it is none of the callbacks
    the document already holds. *)
Definition fresh_fn (ls : list fnref) : fnref := S (list_max ls).


(** ** The class [MacroManager] *)

Section MacroManager.

(** [String.prototype.toLowerCase], a built-in of the host. *)
Variable toLowerCase : string -> string.

(** The host application's own state, on which macro actions act. *)
Context {World : Type}.

(** [type MacroAction = () => void]: a call runs on the host's state and
    returns or throws. *)
Definition MacroAction : Type := World -> Completion unit * World.

Record RegisteredMacro : Type := {
  id : string;
  keyCombo : KeyCombo.t;
  action : MacroAction;
  description : option string;
  enabled : bool
}.

(** The private fields of an instance. *)
Record MacroManager : Type := {
  macros : list (string * loc);
  options : MacroManagerOptions;
  isListening : bool;
  listenerFn : fnref
}.

(** The program state: the instance, the heap of macro records, the
    keydown listeners of [document], the effects so far, and the host's
    own state. *)
Record State : Type := {
  this : MacroManager;
  heap : list RegisteredMacro;
  keydown : list fnref;
  effects : list Effect;
  world : World
}.

Definition set_this (f : MacroManager -> MacroManager) (st : State) : State :=
  {| this := f (this st); heap := heap st; keydown := keydown st;
     effects := effects st; world := world st |}.

Definition set_heap (f : list RegisteredMacro -> list RegisteredMacro) (st : State) : State :=
  {| this := this st; heap := f (heap st); keydown := keydown st;
     effects := effects st; world := world st |}.

Definition set_keydown (f : list fnref -> list fnref) (st : State) : State :=
  {| this := this st; heap := heap st; keydown := f (keydown st);
     effects := effects st; world := world st |}.

Definition set_world (w : World) (st : State) : State :=
  {| this := this st; heap := heap st; keydown := keydown st;
     effects := effects st; world := w |}.

Definition emit (e : Effect) (st : State) : State :=
  {| this := this st; heap := heap st; keydown := keydown st;
     effects := effects st ++ [e]; world := world st |}.

Definition set_macros (f : list (string * loc) -> list (string * loc)) (m : MacroManager) : MacroManager :=
  {| macros := f (macros m); options := options m;
     isListening := isListening m; listenerFn := listenerFn m |}.

Definition set_isListening (b : bool) (m : MacroManager) : MacroManager :=
  {| macros := macros m; options := options m;
     isListening := b; listenerFn := listenerFn m |}.

(** *** Computations *)

Definition M (A : Type) : Type := State -> Completion A * State.

Definition ret {A : Type} (a : A) : M A := fun st => (Normal a, st).

Definition bind {A B : Type} (c : M A) (k : A -> M B) : M B :=
  fun st =>
    match c st with
    | (Normal a, st') => k a st'
    | (Throw e, st') => (Throw e, st')
    end.

Definition throw {A : Type} (e : JsError) : M A := fun st => (Throw e, st).

(** [try { body } catch (error) { handler }] *)
Definition try_catch {A : Type} (body : M A) (handler : JsError -> M A) : M A :=
  fun st =>
    match body st with
    | (Normal a, st') => (Normal a, st')
    | (Throw e, st') => handler e st'
    end.

Definition gets {A : Type} (f : State -> A) : M A := fun st => (Normal (f st), st).

Definition modify (f : State -> State) : M unit := fun st => (Normal tt, f st).

Notation "x <- c ;; k" := (bind c (fun x => k))
  (at level 100, c at next level, right associativity).
Notation "c ;; k" := (bind c (fun _ => k))
  (at level 100, right associativity).

(** [if (b) { c }] *)
Definition when (b : bool) (c : M unit) : M unit :=
  if b then c else ret tt.

(** [for (const x of xs) { body }] *)
Fixpoint for_of {A : Type} (xs : list A) (body : A -> M unit) : M unit :=
  match xs with
  | [] => ret tt
  | x :: xs' => body x ;; for_of xs' body
  end.

(** *** Host calls *)

Definition console_log (msg : string) : M unit := modify (emit (ConsoleLog msg)).

Definition console_error (msg : string) (error : JsError) : M unit :=
  modify (emit (ConsoleError msg error)).

Definition event_preventDefault : M unit := modify (emit EventPreventDefault).

Definition event_stopPropagation : M unit := modify (emit EventStopPropagation).

(** [macro.action()] for the record at [l]. *)
Definition call_action (l : loc) (f : MacroAction) : M unit :=
  fun st =>
    let '(c, w) := f (world st) in
    (c, set_world w (emit (Invoke l) st)).

(** Reading the record behind a reference. *)
Definition deref (l : loc) : M (option RegisteredMacro) :=
  gets (fun st => heap st !! l).

(** A new record object; its reference is returned. *)
Definition new_object (r : RegisteredMacro) : M loc :=
  fun st => (Normal (length (heap st)), set_heap (fun h => h ++ [r]) st).

(** Writing fields of the record behind a reference. *)
Definition assign (l : loc) (f : RegisteredMacro -> RegisteredMacro) : M unit :=
  modify (set_heap (alter f l)).

Definition set_enabled (b : bool) (r : RegisteredMacro) : RegisteredMacro :=
  {| id := id r; keyCombo := keyCombo r; action := action r;
     description := description r; enabled := b |}.

(** [if (this.options.debug) { console.log(msg) }] *)
Definition debug_log (msg : string) : M unit :=
  opts <- gets (fun st => options (this st)) ;;
  when (truthy (debug opts)) (console_log msg).

(** *** Construction *)

(** One property of [{ ...defaults, ...options }]: a key of [options]
    that is there overwrites the default, whatever its value. *)
Definition spread (default : option bool) (f : Field (option bool)) : option bool :=
  match f with
  | Omitted => default
  | Supplied v => v
  end.

(** [{}] *)
Definition empty_literal : OptionsLiteral :=
  {| lit_preventDefault := Omitted; lit_stopPropagation := Omitted; lit_debug := Omitted |}.

(** [constructor(options: MacroManagerOptions = {})]; [None] is a call
    without the argument. *)
Definition constructor (options : option OptionsLiteral) : M unit :=
  let options := match options with Some o => o | None => empty_literal end in
  fn <- gets (fun st => fresh_fn (keydown st)) ;;
  modify (set_this (fun _ =>
    {| macros := [];
       options :=
         {| preventDefault := spread (Some true) (lit_preventDefault options);
            stopPropagation := spread (Some false) (lit_stopPropagation options);
            debug := spread (Some false) (lit_debug options) |};
       isListening := false;
       listenerFn := fn |})).

(** *** Matching and dispatch *)

Definition matchesCombo (event : KeyboardEvent.t) (combo : KeyCombo.t) : bool :=
  let key := toLowerCase (KeyCombo.key combo) in
  let eventKey := toLowerCase (KeyboardEvent.key event) in
  String.eqb eventKey key &&
  Bool.eqb (KeyboardEvent.ctrlKey event) (truthy (KeyCombo.ctrl combo)) &&
  Bool.eqb (KeyboardEvent.altKey event) (truthy (KeyCombo.alt combo)) &&
  Bool.eqb (KeyboardEvent.shiftKey event) (truthy (KeyCombo.shift combo)) &&
  Bool.eqb (KeyboardEvent.metaKey event) (truthy (KeyCombo.meta combo)).

Definition text_entry_tags : list string := ["input"; "textarea"; "select"].

Definition error_message (id : string) : string :=
  "MacroManager: Error executing macro " ++ dquote ++ id ++ dquote ++ ":".

(** The body of the loop of [handleKeyPress] for the record at [l].  A
    reference held by the [Map] always leads to a record (see [steps_wf]),
    so the first branch of the match is never taken. *)
Definition handle_macro (event : KeyboardEvent.t) (l : loc) : M unit :=
  macro <- deref l ;;
  match macro with
  | None => ret tt
  | Some macro =>
      if enabled macro && matchesCombo event (keyCombo macro) then
        debug_log ("MacroManager: Executing macro " ++ dquote ++ id macro ++ dquote) ;;
        opts <- gets (fun st => options (this st)) ;;
        when (truthy (preventDefault opts)) event_preventDefault ;;
        when (truthy (stopPropagation opts)) event_stopPropagation ;;
        try_catch
          (call_action l (action macro))
          (fun error => console_error (error_message (id macro)) error)
      else ret tt
  end.

(** [handleKeyPress].  Actions do not touch the [Map], so the loop over
    [this.macros.values()] visits the references the [Map] holds when the
    loop starts, in insertion order. *)
Definition handleKeyPress (event : KeyboardEvent.t) : M unit :=
  let target := KeyboardEvent.target event in
  let tag := toLowerCase (tagName target) in
  if includes text_entry_tags tag then ret tt
  else
    values <- gets (fun st => Map_values (macros (this st))) ;;
    for_of values (handle_macro event).

(** *** Listening *)

Definition start : M unit :=
  listening <- gets (fun st => isListening (this st)) ;;
  when (negb listening)
    (fn <- gets (fun st => listenerFn (this st)) ;;
     modify (set_keydown (addEventListener fn)) ;;
     modify (set_this (set_isListening true)) ;;
     debug_log "MacroManager: Started listening for key combinations").

Definition stop : M unit :=
  listening <- gets (fun st => isListening (this st)) ;;
  when listening
    (fn <- gets (fun st => listenerFn (this st)) ;;
     modify (set_keydown (removeEventListener fn)) ;;
     modify (set_this (set_isListening false)) ;;
     debug_log "MacroManager: Stopped listening for key combinations").

(** *** The registry *)

Definition duplicate_message (id : string) : string :=
  "MacroManager: Macro with ID " ++ dquote ++ id ++ dquote ++ " already exists".

Definition register (id : string) (keyCombo : KeyCombo.t) (action : MacroAction)
    (description : option string) : M string :=
  let comboKey := getComboKey keyCombo in
  existingMacro <- gets (fun st => Map_get id (macros (this st))) ;;
  match existingMacro with
  | Some _ => throw (Error (duplicate_message id))
  | None =>
      l <- new_object
             {| id := id; keyCombo := keyCombo; action := action;
                description := description; enabled := true |} ;;
      modify (set_this (set_macros (Map_set id l))) ;;
      debug_log ("MacroManager: Registered macro " ++ dquote ++ id ++ dquote ++
                 " with key combination " ++ dquote ++ comboKey ++ dquote) ;;
      ret id
  end.

Definition unregister (id : string) : M bool :=
  has <- gets (fun st => Map_has id (macros (this st))) ;;
  if has then
    modify (set_this (set_macros (Map_delete id))) ;;
    debug_log ("MacroManager: Unregistered macro " ++ dquote ++ id ++ dquote) ;;
    ret true
  else ret false.

Definition enable (id : string) : M bool :=
  macro <- gets (fun st => Map_get id (macros (this st))) ;;
  match macro with
  | Some l =>
      assign l (set_enabled true) ;;
      debug_log ("MacroManager: Enabled macro " ++ dquote ++ id ++ dquote) ;;
      ret true
  | None => ret false
  end.

Definition disable (id : string) : M bool :=
  macro <- gets (fun st => Map_get id (macros (this st))) ;;
  match macro with
  | Some l =>
      assign l (set_enabled false) ;;
      debug_log ("MacroManager: Disabled macro " ++ dquote ++ id ++ dquote) ;;
      ret true
  | None => ret false
  end.

Definition toggle (id : string) : M bool :=
  macro <- gets (fun st => Map_get id (macros (this st))) ;;
  match macro with
  | Some l =>
      assign l (fun r => set_enabled (negb (enabled r)) r) ;;
      now <- deref l ;;
      debug_log ("MacroManager: " ++
                 (if truthy (enabled <$> now) then "Enabled" else "Disabled") ++
                 " macro " ++ dquote ++ id ++ dquote) ;;
      ret true
  | None => ret false
  end.

(** [getAll]: a new array of the references the [Map] holds. *)
Definition getAll : M (list loc) :=
  gets (fun st => Map_values (macros (this st))).

(** [get]: the reference the [Map] holds, or [undefined]. *)
Definition get (id : string) : M (option loc) :=
  gets (fun st => Map_get id (macros (this st))).

(** [Partial<Omit<RegisteredMacro, 'id'>>]: each of the four fields is
    left out or supplied with a value of the field's type. *)
Record Updates : Type := {
  upd_keyCombo : Field KeyCombo.t;
  upd_action : Field MacroAction;
  upd_description : Field (option string);
  upd_enabled : Field bool
}.

Definition assign_field {A : Type} (old : A) (f : Field A) : A :=
  match f with
  | Omitted => old
  | Supplied v => v
  end.

(** [Object.assign(macro, updates)] *)
Definition Object_assign (updates : Updates) (macro : RegisteredMacro) : RegisteredMacro :=
  {| id := id macro;
     keyCombo := assign_field (keyCombo macro) (upd_keyCombo updates);
     action := assign_field (action macro) (upd_action updates);
     description := assign_field (description macro) (upd_description updates);
     enabled := assign_field (enabled macro) (upd_enabled updates) |}.

Definition update (id : string) (updates : Updates) : M bool :=
  macro <- gets (fun st => Map_get id (macros (this st))) ;;
  match macro with
  | Some l =>
      assign l (Object_assign updates) ;;
      debug_log ("MacroManager: Updated macro " ++ dquote ++ id ++ dquote) ;;
      ret true
  | None => ret false
  end.

Definition clear : M unit :=
  modify (set_this (set_macros (fun _ => []))) ;;
  debug_log "MacroManager: Cleared all macros".

End MacroManager.

Arguments MacroAction World : clear implicits.
Arguments RegisteredMacro World : clear implicits.
Arguments State World : clear implicits.
Arguments M World A : clear implicits.
Arguments Updates World : clear implicits.

(** *** What a dispatch does, read off the state *)

(** The record enables the macro and its chord is the event's. *)
Definition triggers (toLowerCase : string -> string) {World : Type}
    (event : KeyboardEvent.t) (r : RegisteredMacro World) : bool :=
  enabled r && matchesCombo toLowerCase event (keyCombo r).

Definition fires (toLowerCase : string -> string) {World : Type}
    (event : KeyboardEvent.t) (h : list (RegisteredMacro World)) (l : loc) : bool :=
  match h !! l with
  | Some r => triggers toLowerCase event r
  | None => false
  end.

(** The references of the [Map], in its order, whose record is enabled
    and matches the event. *)
Definition matching (toLowerCase : string -> string) {World : Type}
    (event : KeyboardEvent.t) (st : State World) : list loc :=
  List.filter (fires toLowerCase event (heap st)) (Map_values (macros (this st))).

(** An action that throws whatever the host's state is. *)
Definition always_throws {World : Type} (r : RegisteredMacro World) : Prop :=
  forall w, exists err, fst (action r w) = Throw err.

(** The effects a call of [handleKeyPress] adds to those of [st]. *)
Definition dispatch_trace (toLowerCase : string -> string) {World : Type}
    (event : KeyboardEvent.t) (st : State World) : list Effect :=
  drop (length (effects st)) (effects (snd (handleKeyPress toLowerCase event st))).

(** How often [x] happens in a list of effects. *)
Definition calls (x : Effect) (tr : list Effect) : nat :=
  count_occ Effect_eq_dec tr x.

(** The event comes from a text-entry element. *)
Definition from_text_entry (toLowerCase : string -> string) (event : KeyboardEvent.t) : bool :=
  includes text_entry_tags (toLowerCase (tagName (KeyboardEvent.target event))).

(** *** Listening, read off the state *)

(** How many times the callback [f] is in a listener list. *)
Definition attached (f : fnref) (ls : list fnref) : nat :=
  count_occ Nat.eq_dec ls f.

(** A call of [start] or of [stop]. *)
Inductive ListenCall : Type :=
| CallStart
| CallStop.

Definition run_call {World : Type} (c : ListenCall) : M World unit :=
  match c with
  | CallStart => start
  | CallStop => stop
  end.

(** The flag tells how often the instance's own callback is attached. *)
Definition listening_inv {World : Type} (st : State World) : Prop :=
  attached (listenerFn (this st)) (keydown st) = if isListening (this st) then 1 else 0.

(** *** Clients *)

(** What a client of an instance can do with it: call a method of the
    public interface, or let the host deliver a key-down event to the
    handler. *)
Inductive ApiCall (World : Type) : Type :=
| CRegister (id : string) (keyCombo : KeyCombo.t) (action : MacroAction World)
    (description : option string)
| CUnregister (id : string)
| CEnable (id : string)
| CDisable (id : string)
| CToggle (id : string)
| CUpdate (id : string) (updates : Updates World)
| CClear
| CStart
| CStop
| CKeyDown (event : KeyboardEvent.t).
Arguments CRegister {World} id keyCombo action description.
Arguments CUnregister {World} id.
Arguments CEnable {World} id.
Arguments CDisable {World} id.
Arguments CToggle {World} id.
Arguments CUpdate {World} id updates.
Arguments CClear {World}.
Arguments CStart {World}.
Arguments CStop {World}.
Arguments CKeyDown {World} event.

(** The state after a call, whatever it returned or threw.  The handler
    may be called at any time, as the tests do with the callback they
    take from [addEventListener]. *)
Definition step (toLowerCase : string -> string) {World : Type}
    (c : ApiCall World) (st : State World) : State World :=
  match c with
  | CRegister id keyCombo action description =>
      snd (register id keyCombo action description st)
  | CUnregister id => snd (unregister id st)
  | CEnable id => snd (enable id st)
  | CDisable id => snd (disable id st)
  | CToggle id => snd (toggle id st)
  | CUpdate id updates => snd (update id updates st)
  | CClear => snd (clear st)
  | CStart => snd (start st)
  | CStop => snd (stop st)
  | CKeyDown event => snd (handleKeyPress toLowerCase event st)
  end.

Definition steps (toLowerCase : string -> string) {World : Type}
    (cs : list (ApiCall World)) (st : State World) : State World :=
  fold_left (fun st c => step toLowerCase c st) cs st.

(** The state is well formed: the ids of the [Map] are distinct, so are
    its references, and each reference leads to a record that carries the
    id it is filed under. *)
Definition wf {World : Type} (st : State World) : Prop :=
  NoDup (Map_keys (macros (this st)))
  /\ NoDup (Map_values (macros (this st)))
  /\ (forall k l, In (k, l) (macros (this st)) ->
        exists r, heap st !! l = Some r /\ id r = k).

(** What a method of the registry leaves alone. *)
Definition same_host {World : Type} (st st' : State World) : Prop :=
  options (this st') = options (this st)
  /\ listenerFn (this st') = listenerFn (this st)
  /\ world st' = world st.


(** The records seen through an array of references. *)
Definition contents {World : Type} (st : State World) (refs : list loc)
    : list (option (RegisteredMacro World)) :=
  map (fun l => heap st !! l) refs.

(** *** An instance of [toLowerCase] on ASCII letters, to run examples *)

Definition ascii_lower (c : ascii) : ascii :=
  let n := nat_of_ascii c in
  if Nat.leb 65 n && Nat.leb n 90 then ascii_of_nat (n + 32) else c.

Fixpoint lower (s : string) : string :=
  match s with
  | EmptyString => EmptyString
  | String c s' => String (ascii_lower c) (lower s')
  end.

(** *** Sample instances, to run examples *)

(** The state an instance is constructed in: nothing registered with the
    document, nothing logged, the host's counter at zero. *)
Definition blank : State nat :=
  {| this := {| macros := [];
                options := {| preventDefault := None; stopPropagation := None;
                              debug := None |};
                isListening := false; listenerFn := 0 |};
     heap := []; keydown := []; effects := []; world := 0 |}.

(** An action that counts its calls, and one that throws. *)
Definition bump : MacroAction nat := fun w => (Normal tt, S w).

Definition boom : MacroAction nat := fun w => (Throw (Error "Test error"), w).

(** [{ key: k }] and [{ key: k, ctrl: true }]. *)
Definition chord (k : string) (with_ctrl : bool) : KeyCombo.t :=
  {| KeyCombo.key := k;
     KeyCombo.ctrl := if with_ctrl then Some true else None;
     KeyCombo.alt := None; KeyCombo.shift := None; KeyCombo.meta := None |}.

(** A key-down event for [k], with or without Ctrl, from an element with
    tag name [tag]. *)
Definition key_event (k : string) (with_ctrl : bool) (tag : string) : KeyboardEvent.t :=
  {| KeyboardEvent.key := k; KeyboardEvent.ctrlKey := with_ctrl;
     KeyboardEvent.altKey := false; KeyboardEvent.shiftKey := false;
     KeyboardEvent.metaKey := false;
     KeyboardEvent.target := {| tagName := tag |} |}.

(** [new MacroManager(o)] *)
Definition fresh_manager (o : option OptionsLiteral) : State nat :=
  snd (constructor o blank).

(** One macro, [save], on Ctrl+s. *)
Definition save_registered : State nat :=
  steps lower [CRegister "save" (chord "s" true) bump (Some "Save the current document")]
    (fresh_manager None).

(** Two macros on [x]: the first throws, the second counts. *)
Definition two_on_x (o : option OptionsLiteral) : State nat :=
  steps lower [CRegister "first" (chord "x" false) boom None;
               CRegister "second" (chord "x" false) bump None]
    (fresh_manager o).

(** [{ preventDefault: undefined }] and [{ stopPropagation: true }]. *)
Definition preventDefault_undefined : OptionsLiteral :=
  {| lit_preventDefault := Supplied None; lit_stopPropagation := Omitted;
     lit_debug := Omitted |}.

Definition stopPropagation_true : OptionsLiteral :=
  {| lit_preventDefault := Omitted; lit_stopPropagation := Supplied (Some true);
     lit_debug := Omitted |}.

(** *** The effects of a dispatch, as a function of the state *)

Definition executing_message (id : string) : string :=
  "MacroManager: Executing macro " ++ dquote ++ id ++ dquote.

(** What the handler does for one record that fires, from the host's
    state [w]: the effects in order, and the host's state afterwards. *)
Definition macro_effects {World : Type} (opts : MacroManagerOptions) (l : loc)
    (r : RegisteredMacro World) (w : World) : list Effect * World :=
  ((if truthy (debug opts) then [ConsoleLog (executing_message (id r))] else []) ++
   (if truthy (preventDefault opts) then [EventPreventDefault] else []) ++
   (if truthy (stopPropagation opts) then [EventStopPropagation] else []) ++
   [Invoke l] ++
   match fst (action r w) with
   | Normal _ => []
   | Throw e => [ConsoleError (error_message (id r)) e]
   end,
   snd (action r w)).

(** The same for a list of references, visited in order. *)
Fixpoint loop_effects (toLowerCase : string -> string) {World : Type}
    (event : KeyboardEvent.t) (opts : MacroManagerOptions)
    (h : list (RegisteredMacro World)) (ls : list loc) (w : World)
    : list Effect * World :=
  match ls with
  | [] => ([], w)
  | l :: ls' =>
      match h !! l with
      | Some r =>
          if triggers toLowerCase event r then
            let '(tr1, w1) := macro_effects opts l r w in
            let '(tr2, w2) := loop_effects toLowerCase event opts h ls' w1 in
            (tr1 ++ tr2, w2)
          else loop_effects toLowerCase event opts h ls' w
      | None => loop_effects toLowerCase event opts h ls' w
      end
  end.

(** The records whose action a list of effects calls, in order. *)
Fixpoint invoked (tr : list Effect) : list loc :=
  match tr with
  | [] => []
  | Invoke l :: tr' => l :: invoked tr'
  | _ :: tr' => invoked tr'
  end.

(** The host's state after the actions of the records at [ls] have run
    one after the other, each from the state the one before left. *)
Fixpoint run_actions {World : Type} (h : list (RegisteredMacro World))
    (ls : list loc) (w : World) : World :=
  match ls with
  | [] => w
  | l :: ls' =>
      match h !! l with
      | Some r => run_actions h ls' (snd (action r w))
      | None => run_actions h ls' w
      end
  end.

(** The state with the effects and the host's own state left out: the
    instance, the records and the listeners. *)
Definition same_registry {World : Type} (st st' : State World) : Prop :=
  this st' = this st /\ heap st' = heap st /\ keydown st' = keydown st.

(** An effect is a line of [console.log]. *)
Definition is_ConsoleLog (e : Effect) : bool :=
  match e with
  | ConsoleLog _ => true
  | _ => false
  end.

(** An effect is a line of [console.error]. *)
Definition is_ConsoleError (e : Effect) : bool :=
  match e with
  | ConsoleError _ _ => true
  | _ => false
  end.

(** *** Registrations and updates, for the statements below *)

(** The arguments of one call of [register]. *)
Record Registration (World : Type) : Type := {
  reg_id : string;
  reg_keyCombo : KeyCombo.t;
  reg_action : MacroAction World;
  reg_description : option string
}.
Arguments reg_id {World} r.
Arguments reg_keyCombo {World} r.
Arguments reg_action {World} r.
Arguments reg_description {World} r.

Definition register_call {World : Type} (g : Registration World) : ApiCall World :=
  CRegister (reg_id g) (reg_keyCombo g) (reg_action g) (reg_description g).

(** The record [register] makes from its arguments. *)
Definition new_record {World : Type} (g : Registration World) : RegisteredMacro World :=
  {| id := reg_id g; keyCombo := reg_keyCombo g; action := reg_action g;
     description := reg_description g; enabled := true |}.

(** [{}] and [{ enabled: b }] as arguments of [update]. *)
Definition no_updates {World : Type} : Updates World :=
  {| upd_keyCombo := Omitted; upd_action := Omitted;
     upd_description := Omitted; upd_enabled := Omitted |}.

Definition only_enabled {World : Type} (b : bool) : Updates World :=
  {| upd_keyCombo := Omitted; upd_action := Omitted;
     upd_description := Omitted; upd_enabled := Supplied b |}.

(** A string holds the character [+]. *)
Fixpoint has_plus (s : string) : bool :=
  match s with
  | EmptyString => false
  | String c s' => Ascii.eqb c "+" || has_plus s'
  end.

(** The line [register] logs in debug mode. *)
Definition registered_message (id : string) (combo : KeyCombo.t) : string :=
  "MacroManager: Registered macro " ++ dquote ++ id ++ dquote ++
  " with key combination " ++ dquote ++ getComboKey combo ++ dquote.

(** The record of [save] in [save_registered], and two registrations. *)
Definition save_record : RegisteredMacro nat :=
  {| id := "save"; keyCombo := chord "s" true; action := bump;
     description := Some "Save the current document"; enabled := true |}.

Definition save_and_open : list (Registration nat) :=
  [{| reg_id := "save"; reg_keyCombo := chord "s" true; reg_action := bump;
      reg_description := None |};
   {| reg_id := "open"; reg_keyCombo := chord "o" true; reg_action := boom;
      reg_description := Some "Open a document" |}].

(** A document that already has two listeners of others. *)
Definition busy_document : State nat := set_keydown (fun _ => [7; 3]) blank.

(** ** Properties *)

Section Dispatch.
Variable toLowerCase : string -> string.
Context {World : Type}.
Implicit Types (st : State World) (event : KeyboardEvent.t) (l : loc).

Lemma calls_app x tr1 tr2 : calls x (tr1 ++ tr2) = calls x tr1 + calls x tr2.
Proof. apply count_occ_app. Qed.

Lemma calls_nil x : calls x [] = 0.
Proof. reflexivity. Qed.

Lemma calls_cons x y tr :
  calls x (y :: tr) = (if decide (y = x) then 1 else 0) + calls x tr.
Proof.
  unfold calls. simpl. destruct (Effect_eq_dec y x) as [Heq|Hne].
  - rewrite (decide_True _ _ Heq). reflexivity.
  - rewrite (decide_False _ _ Hne). reflexivity.
Qed.

Lemma calls_In x tr : In x tr <-> 0 < calls x tr.
Proof. unfold calls. rewrite (count_occ_In Effect_eq_dec). lia. Qed.

(** One turn of the loop: it completes normally, touches neither the
    instance nor the heap nor the listeners, and adds effects only when
    the record fires; a throw of the action is caught and logged. *)
Lemma handle_macro_spec event l st :
  exists tr w,
    handle_macro toLowerCase event l st =
      (Normal tt, {| this := this st; heap := heap st; keydown := keydown st;
                     effects := effects st ++ tr; world := w |})
    /\ (forall l', calls (Invoke l') tr =
          if fires toLowerCase event (heap st) l && Nat.eqb l l' then 1 else 0)
    /\ calls EventPreventDefault tr =
         (if fires toLowerCase event (heap st) l && truthy (preventDefault (options (this st)))
          then 1 else 0)
    /\ calls EventStopPropagation tr =
         (if fires toLowerCase event (heap st) l && truthy (stopPropagation (options (this st)))
          then 1 else 0)
    /\ (fires toLowerCase event (heap st) l = false -> tr = [] /\ w = world st)
    /\ (forall r err,
          heap st !! l = Some r -> triggers toLowerCase event r = true ->
          fst (action r (world st)) = Throw err ->
          In (ConsoleError (error_message (id r)) err) tr).
Proof.
  unfold handle_macro, fires, triggers, bind, deref, gets. simpl.
  destruct (heap st !! l) as [r|] eqn:Hr; simpl.
  2:{ exists [], (world st). rewrite app_nil_r. destruct st; simpl.
      split; [|split; [|split; [|split; [|split]]]]; try reflexivity.
      - intros _. split; reflexivity.
      - intros r err Hr'. discriminate. }
  destruct (enabled r && matchesCombo toLowerCase event (keyCombo r)) eqn:Hf; simpl.
  2:{ exists [], (world st). rewrite app_nil_r. destruct st; simpl.
      split; [|split; [|split; [|split; [|split]]]]; try reflexivity.
      - intros _. split; reflexivity.
      - intros r' err Hr' Ht. simplify_eq. congruence. }
  unfold debug_log, when, try_catch, call_action, console_log, console_error,
    event_preventDefault, event_stopPropagation, bind, gets, modify, ret; simpl.
  destruct (truthy (debug (options (this st)))) eqn:Hd,
           (truthy (preventDefault (options (this st)))) eqn:Hp,
           (truthy (stopPropagation (options (this st)))) eqn:Hs;
    destruct (action r (world st)) as [[[]|err] w] eqn:Ha;
    unfold emit, set_world; simpl; rewrite ?Hd, ?Hp, ?Hs; simpl; rewrite ?Ha; simpl;
    eexists _, w; (split; [rewrite <- ?app_assoc; reflexivity|]);
    (split; [|split; [|split; [|split]]]);
    try (intros r' err' Hr' _ Hthrow; simplify_eq; rewrite Ha in Hthrow;
         simpl in Hthrow; simplify_eq; rewrite !in_app_iff; simpl; tauto);
    try discriminate; intros;
    rewrite ?calls_app, ?calls_cons, ?calls_nil;
    repeat case_decide; simplify_eq; rewrite ?Nat.eqb_refl; try reflexivity;
    destruct (Nat.eqb_spec l l'); first [reflexivity | congruence].
Qed.

(** The whole loop, over any list of references. *)
Lemma for_of_handle_macro_spec event (ls : list loc) st :
  exists tr w,
    for_of ls (handle_macro toLowerCase event) st =
      (Normal tt, {| this := this st; heap := heap st; keydown := keydown st;
                     effects := effects st ++ tr; world := w |})
    /\ (forall l', calls (Invoke l') tr =
          count_occ Nat.eq_dec (List.filter (fires toLowerCase event (heap st)) ls) l')
    /\ calls EventPreventDefault tr =
         (if truthy (preventDefault (options (this st)))
          then length (List.filter (fires toLowerCase event (heap st)) ls) else 0)
    /\ calls EventStopPropagation tr =
         (if truthy (stopPropagation (options (this st)))
          then length (List.filter (fires toLowerCase event (heap st)) ls) else 0)
    /\ (List.filter (fires toLowerCase event (heap st)) ls = [] -> tr = [] /\ w = world st)
    /\ (forall l' r,
          In l' ls -> heap st !! l' = Some r -> triggers toLowerCase event r = true ->
          always_throws r ->
          exists err, In (ConsoleError (error_message (id r)) err) tr).
Proof.
  revert st. induction ls as [|l ls IH]; intros st.
  - exists [], (world st). rewrite app_nil_r. destruct st; simpl.
    split; [|split; [|split; [|split; [|split]]]]; try reflexivity.
    + destruct (truthy (preventDefault _)); reflexivity.
    + destruct (truthy (stopPropagation _)); reflexivity.
    + intros _. split; reflexivity.
    + intros l' r [].
  - destruct (handle_macro_spec event l st)
      as (tr1 & w1 & Hrun & Hinv & Hpd & Hsp & Hno & Herr).
    set (st1 := {| this := this st; heap := heap st; keydown := keydown st;
                   effects := effects st ++ tr1; world := w1 |}) in *.
    destruct (IH st1) as (tr2 & w2 & Hrun2 & Hinv2 & Hpd2 & Hsp2 & Hno2 & Herr2).
    simpl in Hrun2, Hinv2, Hpd2, Hsp2, Hno2, Herr2.
    exists (tr1 ++ tr2), w2. split.
    { simpl. unfold bind. rewrite Hrun, Hrun2. rewrite app_assoc. reflexivity. }
    assert (Hcaught : forall l' r,
              In l' (l :: ls) -> heap st !! l' = Some r ->
              triggers toLowerCase event r = true -> always_throws r ->
              exists err, In (ConsoleError (error_message (id r)) err) (tr1 ++ tr2)).
    { intros l' r [<-|Hin] Hr Ht Hthrows.
      - destruct (Hthrows (world st)) as [err Hthrow]. exists err.
        apply in_or_app. left. eapply Herr; eassumption.
      - destruct (Herr2 l' r Hin Hr Ht Hthrows) as [err Herr']. exists err.
        apply in_or_app. right. exact Herr'. }
    simpl. destruct (fires toLowerCase event (heap st) l) eqn:Hf; simpl in *.
    + split; [|split; [|split; [|split]]].
      * intros l'. rewrite calls_app, Hinv, Hinv2. simpl.
        destruct (Nat.eq_dec l l') as [->|Hne].
        -- rewrite Nat.eqb_refl. reflexivity.
        -- apply Nat.eqb_neq in Hne. rewrite Hne. reflexivity.
      * rewrite calls_app, Hpd, Hpd2.
        destruct (truthy (preventDefault _)); reflexivity.
      * rewrite calls_app, Hsp, Hsp2.
        destruct (truthy (stopPropagation _)); reflexivity.
      * discriminate.
      * exact Hcaught.
    + destruct (Hno eq_refl) as [-> ->]. split; [|split; [|split; [|split]]].
      * intros l'. rewrite calls_app, Hinv, Hinv2. reflexivity.
      * rewrite calls_app, Hpd, Hpd2. reflexivity.
      * rewrite calls_app, Hsp, Hsp2. reflexivity.
      * intros Hnil. destruct (Hno2 Hnil) as [-> ->]. split; reflexivity.
      * exact Hcaught.
Qed.

(** [handleKeyPress] on an event that is not from a text-entry element. *)
Lemma handleKeyPress_spec event st :
  from_text_entry toLowerCase event = false ->
  exists w,
    handleKeyPress toLowerCase event st =
      (Normal tt, {| this := this st; heap := heap st; keydown := keydown st;
                     effects := effects st ++ dispatch_trace toLowerCase event st;
                     world := w |})
    /\ (forall l', calls (Invoke l') (dispatch_trace toLowerCase event st) =
          count_occ Nat.eq_dec (matching toLowerCase event st) l')
    /\ calls EventPreventDefault (dispatch_trace toLowerCase event st) =
         (if truthy (preventDefault (options (this st)))
          then length (matching toLowerCase event st) else 0)
    /\ calls EventStopPropagation (dispatch_trace toLowerCase event st) =
         (if truthy (stopPropagation (options (this st)))
          then length (matching toLowerCase event st) else 0)
    /\ (matching toLowerCase event st = [] ->
          dispatch_trace toLowerCase event st = [] /\ w = world st)
    /\ (forall l' r,
          In l' (Map_values (macros (this st))) -> heap st !! l' = Some r ->
          triggers toLowerCase event r = true -> always_throws r ->
          exists err,
            In (ConsoleError (error_message (id r)) err)
               (dispatch_trace toLowerCase event st)).
Proof.
  intros Htag.
  destruct (for_of_handle_macro_spec event (Map_values (macros (this st))) st)
    as (tr & w & Hrun & Hrest).
  assert (Hk : handleKeyPress toLowerCase event st =
               (Normal tt, {| this := this st; heap := heap st; keydown := keydown st;
                              effects := effects st ++ tr; world := w |})).
  { unfold handleKeyPress. unfold from_text_entry in Htag. rewrite Htag.
    unfold bind, gets. exact Hrun. }
  assert (Htr : dispatch_trace toLowerCase event st = tr).
  { unfold dispatch_trace. rewrite Hk. simpl. apply drop_app_length. }
  exists w. rewrite Htr. split; [exact Hk|]. exact Hrest.
Qed.

(** [handleKeyPress] on an event from a text-entry element. *)
Lemma handleKeyPress_text_entry event st :
  from_text_entry toLowerCase event = true ->
  handleKeyPress toLowerCase event st = (Normal tt, st).
Proof.
  intros Htag. unfold handleKeyPress. unfold from_text_entry in Htag.
  rewrite Htag. reflexivity.
Qed.

Lemma matchesCombo_true event (combo : KeyCombo.t) :
  matchesCombo toLowerCase event combo = true <->
    toLowerCase (KeyboardEvent.key event) = toLowerCase (KeyCombo.key combo)
    /\ KeyboardEvent.ctrlKey event = truthy (KeyCombo.ctrl combo)
    /\ KeyboardEvent.altKey event = truthy (KeyCombo.alt combo)
    /\ KeyboardEvent.shiftKey event = truthy (KeyCombo.shift combo)
    /\ KeyboardEvent.metaKey event = truthy (KeyCombo.meta combo).
Proof.
  unfold matchesCombo. rewrite !andb_true_iff, String.eqb_eq, !Bool.eqb_true_iff.
  tauto.
Qed.

Lemma count_pos_In (ls : list loc) l : 0 < count_occ Nat.eq_dec ls l <-> In l ls.
Proof. rewrite (count_occ_In Nat.eq_dec). lia. Qed.

Lemma In_matching event st l :
  In l (matching toLowerCase event st) <->
    In l (Map_values (macros (this st))) /\ fires toLowerCase event (heap st) l = true.
Proof. unfold matching. apply List.filter_In. Qed.

Lemma In_Map_values {V : Type} (k : string) (v : V) (m : list (string * V)) :
  In (k, v) m -> In v (Map_values m).
Proof. intros Hin. unfold Map_values. apply (in_map snd) in Hin. exact Hin. Qed.

(** An action runs in a dispatch only if the event is not from a
    text-entry element and the record is enabled and matches. *)
Lemma Invoke_in_trace event st l :
  In (Invoke l) (dispatch_trace toLowerCase event st) ->
  from_text_entry toLowerCase event = false /\ In l (matching toLowerCase event st).
Proof.
  intros Hin. destruct (from_text_entry toLowerCase event) eqn:Htag.
  - unfold dispatch_trace in Hin. rewrite (handleKeyPress_text_entry _ _ Htag) in Hin.
    simpl in Hin. rewrite drop_all in Hin. destruct Hin.
  - split; [reflexivity|].
    destruct (handleKeyPress_spec event st Htag) as (w & _ & Hinv & _).
    rewrite calls_In, Hinv, count_pos_In in Hin. exact Hin.
Qed.


(** C5: an event whose target's tag name, lowercased, is [input],
    [textarea] or [select] is discarded: the handler returns with the
    state as it was, so no action is invoked and neither suppression call
    is made, whatever the registered records are. *)
Theorem text_entry_event_discarded event st :
  In (toLowerCase (tagName (KeyboardEvent.target event))) ["input"; "textarea"; "select"] ->
  handleKeyPress toLowerCase event st = (Normal tt, st)
  /\ dispatch_trace toLowerCase event st = []
  /\ (forall l, ~ In (Invoke l) (dispatch_trace toLowerCase event st))
  /\ ~ In EventPreventDefault (dispatch_trace toLowerCase event st)
  /\ ~ In EventStopPropagation (dispatch_trace toLowerCase event st).
Proof.
  intros Htag.
  assert (Hte : from_text_entry toLowerCase event = true).
  { unfold from_text_entry, includes, text_entry_tags. apply existsb_exists.
    eexists. split; [exact Htag|]. apply String.eqb_refl. }
  assert (Htr : dispatch_trace toLowerCase event st = []).
  { unfold dispatch_trace. rewrite (handleKeyPress_text_entry _ _ Hte). simpl.
    apply drop_all. }
  split; [exact (handleKeyPress_text_entry _ _ Hte)|].
  rewrite Htr. split; [reflexivity|]. split; [intros l []|]. split; intros [].
Qed.

(** C7, as the code has it: on an event that is not from a text-entry
    element and has [n] matching enabled records, [event.preventDefault] is called [n] times
    when [preventDefault] is configured and [event.stopPropagation] is
    called [n] times when [stopPropagation] is configured: once per
    matching record, not once per event. *)
Theorem suppression_once_per_match event st (n : nat) :
  from_text_entry toLowerCase event = false ->
  length (matching toLowerCase event st) = n ->
  (truthy (preventDefault (options (this st))) = true ->
     calls EventPreventDefault (dispatch_trace toLowerCase event st) = n)
  /\ (truthy (stopPropagation (options (this st))) = true ->
     calls EventStopPropagation (dispatch_trace toLowerCase event st) = n).
Proof.
  intros Htag Hn.
  destruct (handleKeyPress_spec event st Htag) as (w & _ & _ & Hpd & Hsp & _).
  split; intros Hcfg.
  - rewrite Hpd, Hcfg. exact Hn.
  - rewrite Hsp, Hcfg. exact Hn.
Qed.

(** C9: when no registered record is both enabled and matching, an event
    that is not from a text-entry element passes through: the handler
    returns with the state as it was, having called neither suppression
    and no action. *)
Theorem unmatched_event_passes_through event st :
  from_text_entry toLowerCase event = false ->
  (forall k l r, In (k, l) (macros (this st)) -> heap st !! l = Some r ->
                 triggers toLowerCase event r = false) ->
  handleKeyPress toLowerCase event st = (Normal tt, st)
  /\ dispatch_trace toLowerCase event st = [].
Proof.
  intros Htag Hnone.
  destruct (handleKeyPress_spec event st Htag) as (w & Hrun & _ & _ & _ & Hno & _).
  assert (Hm : matching toLowerCase event st = []).
  { unfold matching, Map_values.
    induction (macros (this st)) as [|[k l] m IH]; [reflexivity|].
    simpl. unfold fires at 1. destruct (heap st !! l) as [r|] eqn:Hr.
    - rewrite (Hnone k l r (or_introl eq_refl) Hr). apply IH.
      intros k' l' r' Hin. apply (Hnone k' l' r'). right. exact Hin.
    - apply IH. intros k' l' r' Hin. apply (Hnone k' l' r'). right. exact Hin. }
  destruct (Hno Hm) as [Htr ->]. split; [|exact Htr].
  rewrite Hrun, Htr, app_nil_r. destruct st; reflexivity.
Qed.
End Dispatch.

(** ** The dispatch as a function of the state *)

Section DispatchEffects.
Variable toLowerCase : string -> string.
Context {World : Type}.
Implicit Types (st : State World) (event : KeyboardEvent.t) (l : loc).

(** One turn of the loop, exactly. *)
Lemma handle_macro_exact event l st :
  handle_macro toLowerCase event l st =
    (Normal tt,
     match heap st !! l with
     | Some r =>
         if triggers toLowerCase event r then
           {| this := this st; heap := heap st; keydown := keydown st;
              effects := effects st ++ fst (macro_effects (options (this st)) l r (world st));
              world := snd (macro_effects (options (this st)) l r (world st)) |}
         else st
     | None => st
     end).
Proof.
  unfold handle_macro, triggers, bind, deref, gets. simpl.
  destruct (heap st !! l) as [r|] eqn:Hr; simpl; [|reflexivity].
  destruct (enabled r && matchesCombo toLowerCase event (keyCombo r)) eqn:Hf; simpl;
    [|reflexivity].
  unfold debug_log, when, try_catch, call_action, console_log, console_error,
    event_preventDefault, event_stopPropagation, bind, gets, modify, ret,
    macro_effects, executing_message; simpl.
  destruct (truthy (debug (options (this st)))) eqn:Hd,
           (truthy (preventDefault (options (this st)))) eqn:Hp,
           (truthy (stopPropagation (options (this st)))) eqn:Hs;
    destruct (action r (world st)) as [[[]|err] w] eqn:Ha;
    unfold emit, set_world; simpl; rewrite ?Hd, ?Hp, ?Hs; simpl; rewrite ?Ha; simpl;
    rewrite <- ?app_assoc; reflexivity.
Qed.

(** The loop, exactly. *)
Lemma for_of_handle_macro_exact event (ls : list loc) st :
  for_of ls (handle_macro toLowerCase event) st =
    (Normal tt,
     {| this := this st; heap := heap st; keydown := keydown st;
        effects := effects st ++
          fst (loop_effects toLowerCase event (options (this st)) (heap st) ls (world st));
        world :=
          snd (loop_effects toLowerCase event (options (this st)) (heap st) ls (world st)) |}).
Proof.
  revert st. induction ls as [|l ls IH]; intros st.
  - simpl. rewrite app_nil_r. destruct st; reflexivity.
  - simpl. unfold bind. rewrite handle_macro_exact.
    destruct (heap st !! l) as [r|] eqn:Hr; [|apply IH].
    destruct (triggers toLowerCase event r) eqn:Ht; [|apply IH].
    rewrite IH. simpl.
    destruct (loop_effects toLowerCase event (options (this st)) (heap st) ls
                (action r (world st)).2) as [tr2 w2].
    simpl. rewrite <- !app_assoc. reflexivity.
Qed.

(** The handler, exactly, on an event that is not from a text-entry
    element. *)
Lemma handleKeyPress_exact event st :
  from_text_entry toLowerCase event = false ->
  handleKeyPress toLowerCase event st =
    (Normal tt,
     {| this := this st; heap := heap st; keydown := keydown st;
        effects := effects st ++
          fst (loop_effects toLowerCase event (options (this st)) (heap st)
                 (Map_values (macros (this st))) (world st));
        world :=
          snd (loop_effects toLowerCase event (options (this st)) (heap st)
                 (Map_values (macros (this st))) (world st)) |}).
Proof.
  intros Htag. unfold handleKeyPress. unfold from_text_entry in Htag. rewrite Htag.
  unfold bind, gets. apply for_of_handle_macro_exact.
Qed.

Lemma dispatch_trace_exact event st :
  from_text_entry toLowerCase event = false ->
  dispatch_trace toLowerCase event st =
    fst (loop_effects toLowerCase event (options (this st)) (heap st)
           (Map_values (macros (this st))) (world st)).
Proof.
  intros Htag. unfold dispatch_trace. rewrite (handleKeyPress_exact _ _ Htag). simpl.
  apply drop_app_length.
Qed.

Lemma dispatch_trace_text_entry event st :
  from_text_entry toLowerCase event = true ->
  dispatch_trace toLowerCase event st = [].
Proof.
  intros Htag. unfold dispatch_trace.
  rewrite (handleKeyPress_text_entry _ _ _ Htag). simpl. apply drop_all.
Qed.

Lemma invoked_app (tr1 tr2 : list Effect) :
  invoked (tr1 ++ tr2) = invoked tr1 ++ invoked tr2.
Proof.
  induction tr1 as [|e tr1 IH]; simpl; [reflexivity|].
  destruct e; simpl; rewrite IH; reflexivity.
Qed.

Lemma invoked_macro_effects (opts : MacroManagerOptions) l (r : RegisteredMacro World) w :
  invoked (fst (macro_effects opts l r w)) = [l].
Proof.
  unfold macro_effects. simpl.
  destruct (truthy (debug opts)), (truthy (preventDefault opts)),
    (truthy (stopPropagation opts)), (fst (action r w)); reflexivity.
Qed.

Lemma loop_effects_cons event (opts : MacroManagerOptions)
    (h : list (RegisteredMacro World)) l (ls : list loc) w :
  loop_effects toLowerCase event opts h (l :: ls) w =
    if fires toLowerCase event h l then
      match h !! l with
      | Some r =>
          (fst (macro_effects opts l r w) ++
             fst (loop_effects toLowerCase event opts h ls (snd (action r w))),
           snd (loop_effects toLowerCase event opts h ls (snd (action r w))))
      | None => loop_effects toLowerCase event opts h ls w
      end
    else loop_effects toLowerCase event opts h ls w.
Proof.
  simpl. unfold fires. destruct (h !! l) as [r|]; [|reflexivity].
  destruct (triggers toLowerCase event r); [|reflexivity].
  destruct (loop_effects toLowerCase event opts h ls (action r w).2). reflexivity.
Qed.

Lemma invoked_loop_effects event (opts : MacroManagerOptions)
    (h : list (RegisteredMacro World)) (ls : list loc) w :
  invoked (fst (loop_effects toLowerCase event opts h ls w)) =
    List.filter (fires toLowerCase event h) ls.
Proof.
  revert w. induction ls as [|l ls IH]; intros w; [reflexivity|].
  rewrite loop_effects_cons. cbn [List.filter].
  destruct (fires toLowerCase event h l) eqn:Hf; [|apply IH].
  unfold fires in Hf. destruct (h !! l) as [r|]; [|discriminate].
  cbn [fst]. rewrite invoked_app, invoked_macro_effects, IH. reflexivity.
Qed.

Lemma world_loop_effects event (opts : MacroManagerOptions)
    (h : list (RegisteredMacro World)) (ls : list loc) w :
  snd (loop_effects toLowerCase event opts h ls w) =
    run_actions h (List.filter (fires toLowerCase event h) ls) w.
Proof.
  revert w. induction ls as [|l ls IH]; intros w; [reflexivity|].
  rewrite loop_effects_cons. cbn [List.filter].
  destruct (fires toLowerCase event h l) eqn:Hf; [|apply IH].
  unfold fires in Hf. destruct (h !! l) as [r|] eqn:Hr; [|discriminate].
  cbn [snd run_actions]. rewrite Hr. apply IH.
Qed.
End DispatchEffects.

Section DispatchInvokes.
Variable toLowerCase : string -> string.
Context {World : Type}.
Implicit Types (st : State World) (event : KeyboardEvent.t) (l : loc).

Lemma run_actions_app (h : list (RegisteredMacro World)) (ls1 ls2 : list loc) (w : World) :
  run_actions h (ls1 ++ ls2) w = run_actions h ls2 (run_actions h ls1 w).
Proof.
  revert w. induction ls1 as [|l ls1 IH]; intros w; simpl; [reflexivity|].
  destruct (h !! l); apply IH.
Qed.

Lemma In_invoked (tr : list Effect) l : In l (invoked tr) <-> In (Invoke l) tr.
Proof.
  induction tr as [|e tr IH]; simpl; [tauto|].
  destruct e; simpl; rewrite IH; split;
    try (intros [H|H]; [discriminate|exact H]); try (intros H; right; exact H).
  - intros [->|H]; [left; reflexivity|right; exact H].
  - intros [[= ->]|H]; [left; reflexivity|right; exact H].
Qed.

(** C1: for a registered record and a key-down event that does not come
    from a text-entry element, dispatch invokes the record's action if and
    only if the record is enabled, the event's key equals the chord's key
    once both are lowercased, and each of the four modifier flags of the
    event equals the chord's flag, an absent flag counting as false.  To
    invoke is to run: the host is left in the state that the actions of
    the records called, run one after the other in the order of the
    calls, produce; and when the record fulfils the condition its action
    is applied to the state the calls before it left, and the calls after
    it go on from the state it returns. *)
Theorem dispatch_invokes_iff event st (k : string) l (r : RegisteredMacro World) :
  from_text_entry toLowerCase event = false ->
  In (k, l) (macros (this st)) ->
  heap st !! l = Some r ->
  (In (Invoke l) (dispatch_trace toLowerCase event st) <->
     enabled r = true
     /\ toLowerCase (KeyboardEvent.key event) = toLowerCase (KeyCombo.key (keyCombo r))
     /\ KeyboardEvent.ctrlKey event = truthy (KeyCombo.ctrl (keyCombo r))
     /\ KeyboardEvent.altKey event = truthy (KeyCombo.alt (keyCombo r))
     /\ KeyboardEvent.shiftKey event = truthy (KeyCombo.shift (keyCombo r))
     /\ KeyboardEvent.metaKey event = truthy (KeyCombo.meta (keyCombo r)))
  /\ world (snd (handleKeyPress toLowerCase event st)) =
       run_actions (heap st) (invoked (dispatch_trace toLowerCase event st)) (world st)
  /\ (In (Invoke l) (dispatch_trace toLowerCase event st) ->
      exists before after,
        invoked (dispatch_trace toLowerCase event st) = before ++ l :: after
        /\ world (snd (handleKeyPress toLowerCase event st)) =
             run_actions (heap st) after
               (snd (action r (run_actions (heap st) before (world st))))).
Proof.
  intros Htag Hin Hr.
  assert (Hinv : invoked (dispatch_trace toLowerCase event st) =
                 matching toLowerCase event st).
  { rewrite (dispatch_trace_exact _ _ _ Htag). apply invoked_loop_effects. }
  assert (Hw : world (snd (handleKeyPress toLowerCase event st)) =
               run_actions (heap st) (invoked (dispatch_trace toLowerCase event st))
                 (world st)).
  { rewrite Hinv, (handleKeyPress_exact _ _ _ Htag). simpl. apply world_loop_effects. }
  split; [|split; [exact Hw|]].
  - destruct (handleKeyPress_spec toLowerCase event st Htag) as (w & _ & Hcalls & _).
    rewrite calls_In, Hcalls, count_pos_In, In_matching.
    unfold fires. rewrite Hr. unfold triggers.
    rewrite andb_true_iff, matchesCombo_true.
    split.
    + intros [_ H]. exact H.
    + intros H. split; [eapply In_Map_values; eassumption | exact H].
  - intros Hran. apply In_invoked in Hran.
    destruct (in_split _ _ Hran) as (before & after & Hsplit).
    exists before, after. split; [exact Hsplit|].
    rewrite Hw, Hsplit, run_actions_app. simpl. rewrite Hr. reflexivity.
Qed.
End DispatchInvokes.

Section Registry.
Context {World : Type}.
Implicit Types (st : State World) (l : loc) (r : RegisteredMacro World).

Lemma debug_log_eq (msg : string) st :
  debug_log msg st =
    (Normal tt, if truthy (debug (options (this st))) then emit (ConsoleLog msg) st else st).
Proof.
  unfold debug_log, bind, gets, when, console_log, modify, ret.
  destruct (truthy (debug (options (this st)))); reflexivity.
Qed.

Lemma Map_has_false {V : Type} (k : string) (m : list (string * V)) :
  Map_has k m = false <-> Map_get k m = None.
Proof. unfold Map_has. destruct (Map_get k m); split; congruence. Qed.

Lemma Map_has_true {V : Type} (k : string) (m : list (string * V)) :
  Map_has k m = true <-> exists v, Map_get k m = Some v.
Proof.
  unfold Map_has. destruct (Map_get k m) as [v|]; split; try congruence.
  - intros _. exists v. reflexivity.
  - intros [v Hv]. discriminate.
Qed.

Lemma Map_set_fresh {V : Type} (k : string) (v : V) (m : list (string * V)) :
  Map_get k m = None -> Map_set k v m = m ++ [(k, v)].
Proof.
  induction m as [|[k' v'] m IH]; simpl; [reflexivity|].
  destruct (String.eqb k k'); [discriminate|].
  intros Hnone. rewrite (IH Hnone). reflexivity.
Qed.

Lemma Map_get_set_eq {V : Type} (k : string) (v : V) (m : list (string * V)) :
  Map_get k (Map_set k v m) = Some v.
Proof.
  induction m as [|[k' v'] m IH]; simpl.
  - rewrite String.eqb_refl. reflexivity.
  - destruct (String.eqb k k') eqn:Hk; simpl; rewrite Hk; [reflexivity|exact IH].
Qed.

Lemma Map_get_set_ne {V : Type} (k k0 : string) (v : V) (m : list (string * V)) :
  k0 <> k -> Map_get k0 (Map_set k v m) = Map_get k0 m.
Proof.
  intros Hne. induction m as [|[k' v'] m IH]; simpl.
  - apply String.eqb_neq in Hne. rewrite Hne. reflexivity.
  - destruct (String.eqb k k') eqn:Hk; simpl.
    + apply String.eqb_eq in Hk. subst k'. apply String.eqb_neq in Hne.
      rewrite Hne. reflexivity.
    + destruct (String.eqb k0 k'); [reflexivity|exact IH].
Qed.

Lemma Map_get_In {V : Type} (k : string) (v : V) (m : list (string * V)) :
  Map_get k m = Some v -> In (k, v) m.
Proof.
  induction m as [|[k' v'] m IH]; simpl; [discriminate|].
  destruct (String.eqb k k') eqn:Hk.
  - apply String.eqb_eq in Hk. intros [= ->]. left. congruence.
  - intros H. right. exact (IH H).
Qed.

(** C3: [register] under an id that is already there throws the error
    whose message quotes the id and leaves the whole state as it was;
    under a new id it returns the id and adds, at the end of the [Map], a
    new record with the given fields and [enabled] true, every other
    entry and record staying as it was. *)
Theorem register_duplicate_or_insert (k : string) (combo : KeyCombo.t)
    (act : MacroAction World) (desc : option string) st :
  (Map_has k (macros (this st)) = true ->
     register k combo act desc st =
       (Throw (Error ("MacroManager: Macro with ID " ++ dquote ++ k ++ dquote ++
                      " already exists")), st))
  /\ (Map_has k (macros (this st)) = false ->
      exists st' l,
        register k combo act desc st = (Normal k, st')
        /\ macros (this st') = macros (this st) ++ [(k, l)]
        /\ Map_get k (macros (this st')) = Some l
        /\ heap st !! l = None
        /\ heap st' !! l =
             Some {| id := k; keyCombo := combo; action := act;
                     description := desc; enabled := true |}
        /\ (forall l', l' <> l -> heap st' !! l' = heap st !! l')
        /\ (forall k', k' <> k ->
              Map_get k' (macros (this st')) = Map_get k' (macros (this st)))).
Proof.
  split.
  - intros Hhas. apply Map_has_true in Hhas as [l Hl].
    unfold register, bind, gets. simpl. rewrite Hl. reflexivity.
  - intros Hhas. apply Map_has_false in Hhas.
    set (r := {| id := k; keyCombo := combo; action := act;
                 description := desc; enabled := true |}).
    set (st1 := set_this (set_macros (Map_set k (length (heap st))))
                  (set_heap (fun h => h ++ [r]) st)).
    assert (Hreg : exists st', register k combo act desc st = (Normal k, st')
                     /\ this st' = this st1 /\ heap st' = heap st1).
    { unfold register, bind, gets, new_object, modify, ret. simpl. rewrite Hhas.
      fold r. fold st1. rewrite (debug_log_eq _ st1).
      eexists. split; [reflexivity|]. destruct (truthy _); split; reflexivity. }
    destruct Hreg as (st' & Hreg & Hthis & Hheap).
    exists st', (length (heap st)). rewrite Hthis, Hheap. simpl.
    split; [exact Hreg|].
    split; [apply Map_set_fresh; exact Hhas|].
    split; [apply Map_get_set_eq|].
    split; [apply lookup_ge_None_2; lia|].
    split; [apply list_lookup_middle; reflexivity|].
    split.
    + intros l' Hne. destruct (Nat.lt_ge_cases l' (length (heap st))) as [Hlt|Hge].
      * apply lookup_app_l. exact Hlt.
      * rewrite !lookup_ge_None_2; [reflexivity|lia|rewrite length_app; simpl; lia].
    + intros k' Hne. apply Map_get_set_ne. exact Hne.
Qed.

(** [update] on an id that is there: the call returns true, the [Map] is
    as it was, and only the record the id refers to changes, by
    [Object.assign]. *)
Lemma update_present (k : string) (u : Updates World) st l :
  Map_get k (macros (this st)) = Some l ->
  exists st',
    update k u st = (Normal true, st')
    /\ this st' = this st
    /\ heap st' = alter (Object_assign u) l (heap st)
    /\ keydown st' = keydown st
    /\ world st' = world st.
Proof.
  intros Hl. unfold update, bind, gets, assign, modify, ret. simpl. rewrite Hl.
  rewrite debug_log_eq. eexists. split; [reflexivity|].
  destruct (truthy _); repeat split; reflexivity.
Qed.

(** C8: on an id that is not registered, [unregister], [enable],
    [disable], [toggle] and [update] return false and leave the whole
    state as it was; on an id that is registered, [update] returns true
    and writes, on that id's record only, exactly the fields that are
    supplied, the omitted fields and the id keeping their value. *)
Theorem missing_id_noop_and_update_partial (k : string) st :
  (Map_has k (macros (this st)) = false ->
     unregister k st = (Normal false, st)
     /\ enable k st = (Normal false, st)
     /\ disable k st = (Normal false, st)
     /\ toggle k st = (Normal false, st)
     /\ forall u, update k u st = (Normal false, st))
  /\ (forall l r (u : Updates World),
        Map_get k (macros (this st)) = Some l ->
        heap st !! l = Some r ->
        exists st' r',
          update k u st = (Normal true, st')
          /\ macros (this st') = macros (this st)
          /\ heap st' !! l = Some r'
          /\ id r' = id r
          /\ keyCombo r' =
               match upd_keyCombo u with Supplied v => v | Omitted => keyCombo r end
          /\ action r' =
               match upd_action u with Supplied v => v | Omitted => action r end
          /\ description r' =
               match upd_description u with Supplied v => v | Omitted => description r end
          /\ enabled r' =
               match upd_enabled u with Supplied v => v | Omitted => enabled r end
          /\ (forall l', l' <> l -> heap st' !! l' = heap st !! l')).
Proof.
  split.
  - intros Hhas. pose proof Hhas as Hget. apply Map_has_false in Hget.
    unfold unregister, enable, disable, toggle, update, bind, gets, ret. simpl.
    rewrite Hhas, Hget. repeat split; reflexivity.
  - intros l r u Hl Hr.
    destruct (update_present k u st l Hl) as (st' & Hrun & Hthis & Hheap & _).
    exists st', (Object_assign u r). rewrite Hthis, Hheap.
    split; [exact Hrun|]. split; [reflexivity|].
    split; [rewrite list_lookup_alter_eq, Hr; reflexivity|].
    repeat (split; [reflexivity|]).
    intros l' Hne. apply list_lookup_alter_ne. congruence.
Qed.
End Registry.

Section Listening.
Context {World : Type}.
Implicit Types (st : State World) (f g : fnref) (ls : list fnref).

Lemma existsb_eqb_attached f ls :
  existsb (Nat.eqb f) ls = true <-> 0 < attached f ls.
Proof.
  unfold attached. rewrite existsb_exists. split.
  - intros (g & Hin & Heq). apply Nat.eqb_eq in Heq. subst g.
    apply (count_occ_In Nat.eq_dec) in Hin. lia.
  - intros Hpos. exists f. split; [|apply Nat.eqb_refl].
    apply (count_occ_In Nat.eq_dec). lia.
Qed.

Lemma attached_add_self f ls :
  attached f ls = 0 -> attached f (addEventListener f ls) = 1.
Proof.
  intros Hz. unfold addEventListener.
  destruct (existsb (Nat.eqb f) ls) eqn:Hex.
  - apply existsb_eqb_attached in Hex. lia.
  - unfold attached in *. rewrite count_occ_app, Hz. simpl.
    destruct (Nat.eq_dec f f); [reflexivity|congruence].
Qed.

Lemma attached_add_other f g ls :
  g <> f -> attached g (addEventListener f ls) = attached g ls.
Proof.
  intros Hne. unfold addEventListener.
  destruct (existsb (Nat.eqb f) ls); [reflexivity|].
  unfold attached. rewrite count_occ_app. simpl.
  destruct (Nat.eq_dec f g); [congruence|lia].
Qed.

Lemma attached_remove_self f ls :
  attached f (removeEventListener f ls) = pred (attached f ls).
Proof.
  unfold attached. induction ls as [|g ls IH]; simpl; [reflexivity|].
  destruct (Nat.eqb_spec f g) as [->|Hne].
  - destruct (Nat.eq_dec g g); [reflexivity|congruence].
  - simpl. destruct (Nat.eq_dec g f); [congruence|exact IH].
Qed.

Lemma attached_remove_other f g ls :
  g <> f -> attached g (removeEventListener f ls) = attached g ls.
Proof.
  intros Hne. unfold attached. induction ls as [|h ls IH]; simpl; [reflexivity|].
  destruct (Nat.eqb_spec f h) as [->|Hfh].
  - destruct (Nat.eq_dec h g); [congruence|reflexivity].
  - simpl. destruct (Nat.eq_dec h g); rewrite IH; reflexivity.
Qed.

Lemma fresh_fn_not_attached ls : attached (fresh_fn ls) ls = 0.
Proof.
  unfold attached. apply count_occ_not_In. intros Hin.
  assert (Hle : fresh_fn ls <= list_max ls).
  { pose proof (proj1 (list_max_le ls (list_max ls)) (Nat.le_refl _)) as Hall.
    rewrite List.Forall_forall in Hall. apply Hall. exact Hin. }
  unfold fresh_fn in Hle. lia.
Qed.

(** [start], by the flag. *)
Lemma start_spec st :
  exists st',
    start st = (Normal tt, st')
    /\ (isListening (this st) = true -> st' = st)
    /\ (isListening (this st) = false ->
          keydown st' = addEventListener (listenerFn (this st)) (keydown st))
    /\ isListening (this st') = true
    /\ listenerFn (this st') = listenerFn (this st)
    /\ macros (this st') = macros (this st)
    /\ options (this st') = options (this st)
    /\ heap st' = heap st.
Proof.
  unfold start, bind, gets, when, modify, ret. simpl.
  destruct (isListening (this st)) eqn:Hl; simpl.
  - exists st. repeat split; try reflexivity; try assumption. discriminate.
  - rewrite debug_log_eq. eexists. split; [reflexivity|].
    destruct (truthy _); repeat split; try reflexivity; discriminate.
Qed.

(** [stop], by the flag. *)
Lemma stop_spec st :
  exists st',
    stop st = (Normal tt, st')
    /\ (isListening (this st) = false -> st' = st)
    /\ (isListening (this st) = true ->
          keydown st' = removeEventListener (listenerFn (this st)) (keydown st))
    /\ isListening (this st') = false
    /\ listenerFn (this st') = listenerFn (this st)
    /\ macros (this st') = macros (this st)
    /\ options (this st') = options (this st)
    /\ heap st' = heap st.
Proof.
  unfold stop, bind, gets, when, modify, ret. simpl.
  destruct (isListening (this st)) eqn:Hl; simpl.
  - rewrite debug_log_eq. eexists. split; [reflexivity|].
    destruct (truthy _); repeat split; try reflexivity; discriminate.
  - exists st. repeat split; try reflexivity; try assumption. discriminate.
Qed.

Lemma run_call_inv (c : ListenCall) st :
  listening_inv st ->
  exists st',
    run_call c st = (Normal tt, st')
    /\ listening_inv st'
    /\ listenerFn (this st') = listenerFn (this st)
    /\ (forall g, g <> listenerFn (this st) -> attached g (keydown st') = attached g (keydown st)).
Proof.
  unfold listening_inv. intros Hinv. destruct c; simpl.
  - destruct (start_spec st) as (st' & Hrun & Hon & Hoff & Hflag & Hfn & _).
    exists st'. split; [exact Hrun|]. rewrite Hflag, Hfn.
    destruct (isListening (this st)) eqn:Hl.
    + rewrite (Hon eq_refl). repeat split; auto.
    + rewrite (Hoff eq_refl). split; [apply attached_add_self; exact Hinv|].
      split; [reflexivity|]. intros g Hne. apply attached_add_other. exact Hne.
  - destruct (stop_spec st) as (st' & Hrun & Hoff & Hon & Hflag & Hfn & _).
    exists st'. split; [exact Hrun|]. rewrite Hflag, Hfn.
    destruct (isListening (this st)) eqn:Hl.
    + rewrite (Hon eq_refl). split; [rewrite attached_remove_self, Hinv; reflexivity|].
      split; [reflexivity|]. intros g Hne. apply attached_remove_other. exact Hne.
    + rewrite (Hoff eq_refl). repeat split; auto.
Qed.

Lemma run_calls_inv (cs : list ListenCall) st :
  listening_inv st ->
  exists st',
    for_of cs run_call st = (Normal tt, st')
    /\ listening_inv st'
    /\ listenerFn (this st') = listenerFn (this st)
    /\ (forall g, g <> listenerFn (this st) -> attached g (keydown st') = attached g (keydown st)).
Proof.
  revert st. induction cs as [|c cs IH]; intros st Hinv.
  - exists st. repeat split; auto.
  - destruct (run_call_inv c st Hinv) as (st1 & Hrun1 & Hinv1 & Hfn1 & Hoth1).
    destruct (IH st1 Hinv1) as (st2 & Hrun2 & Hinv2 & Hfn2 & Hoth2).
    exists st2. split; [simpl; unfold bind; rewrite Hrun1; exact Hrun2|].
    split; [exact Hinv2|]. split; [congruence|].
    intros g Hne. rewrite Hoth2, Hoth1; congruence.
Qed.

Lemma constructor_spec (opts : option OptionsLiteral) st :
  exists st',
    constructor opts st = (Normal tt, st')
    /\ macros (this st') = []
    /\ isListening (this st') = false
    /\ listenerFn (this st') = fresh_fn (keydown st)
    /\ heap st' = heap st /\ keydown st' = keydown st
    /\ effects st' = effects st /\ world st' = world st.
Proof. eexists. split; [reflexivity|]. repeat split; reflexivity. Qed.

(** C4: after construction and any sequence of [start] and [stop] calls,
    every call having completed normally, the listening flag is true
    exactly when the instance's callback is attached once and false
    exactly when it is not attached; the callback is the one cached by the
    constructor throughout, the listeners of others are as they were, a
    [start] while listening and a [stop] while not listening change
    nothing, and a [stop] while listening removes that callback. *)
Theorem listening_iff_one_handler (opts : option OptionsLiteral)
    (cs : list ListenCall) (st0 : State World) :
  exists st',
    for_of cs run_call (snd (constructor opts st0)) = (Normal tt, st')
    /\ listenerFn (this st') = listenerFn (this (snd (constructor opts st0)))
    /\ (isListening (this st') = true <->
          attached (listenerFn (this st')) (keydown st') = 1)
    /\ (isListening (this st') = false <->
          attached (listenerFn (this st')) (keydown st') = 0)
    /\ (forall g, g <> listenerFn (this st') ->
          attached g (keydown st') = attached g (keydown st0))
    /\ (isListening (this st') = true -> start st' = (Normal tt, st'))
    /\ (isListening (this st') = false -> stop st' = (Normal tt, st'))
    /\ (isListening (this st') = true ->
          exists st'', stop st' = (Normal tt, st'')
            /\ keydown st'' = removeEventListener (listenerFn (this st')) (keydown st')
            /\ attached (listenerFn (this st')) (keydown st'') = 0
            /\ listenerFn (this st'') = listenerFn (this st')).
Proof.
  destruct (constructor_spec opts st0)
    as (st1 & Hc & _ & Hflag1 & Hfn1 & _ & Hkd1 & _).
  rewrite Hc. simpl.
  assert (Hinv1 : listening_inv st1).
  { unfold listening_inv. rewrite Hflag1, Hfn1, Hkd1. apply fresh_fn_not_attached. }
  destruct (run_calls_inv cs st1 Hinv1) as (st' & Hrun & Hinv & Hfn & Hoth).
  exists st'. split; [exact Hrun|]. split; [exact Hfn|].
  unfold listening_inv in Hinv.
  split; [destruct (isListening (this st')); rewrite Hinv; split; congruence|].
  split; [destruct (isListening (this st')); rewrite Hinv; split; congruence|].
  split; [intros g Hne; rewrite Hoth, Hkd1; congruence|].
  destruct (start_spec st') as (sa & Hsa & Hon & _).
  destruct (stop_spec st') as (sb & Hsb & Hoff & Hrem & _ & Hfnb & _).
  split; [intros Hl; rewrite Hsa, (Hon Hl); reflexivity|].
  split; [intros Hl; rewrite Hsb, (Hoff Hl); reflexivity|].
  intros Hl. exists sb. split; [exact Hsb|]. split; [exact (Hrem Hl)|].
  split; [|exact Hfnb].
  rewrite (Hrem Hl), attached_remove_self, Hinv, Hl. reflexivity.
Qed.
End Listening.

Section Invariants.
Variable toLowerCase : string -> string.
Context {World : Type}.
Implicit Types (st : State World) (l : loc) (r : RegisteredMacro World).

Lemma register_state (k : string) combo (act : MacroAction World) desc st :
  let st' := snd (register k combo act desc st) in
  match Map_get k (macros (this st)) with
  | Some _ => st' = st
  | None =>
      macros (this st') = macros (this st) ++ [(k, length (heap st))]
      /\ heap st' =
           heap st ++ [{| id := k; keyCombo := combo; action := act;
                          description := desc; enabled := true |}]
      /\ isListening (this st') = isListening (this st)
      /\ keydown st' = keydown st
      /\ same_host st st'
  end.
Proof.
  unfold register, bind, gets, new_object, modify, ret. simpl.
  destruct (Map_get k (macros (this st))) eqn:Hget; simpl; [reflexivity|].
  rewrite debug_log_eq. simpl.
  destruct (truthy _); simpl; rewrite (Map_set_fresh _ _ _ Hget);
    repeat split; reflexivity.
Qed.

Lemma unregister_state (k : string) st :
  let st' := snd (unregister k st) in
  macros (this st') = Map_delete k (macros (this st))
  /\ heap st' = heap st
  /\ isListening (this st') = isListening (this st)
  /\ keydown st' = keydown st
  /\ same_host st st'.
Proof.
  unfold unregister, bind, gets, modify, ret, Map_has. simpl.
  destruct (Map_get k (macros (this st))) eqn:Hget; simpl.
  - rewrite debug_log_eq. simpl. destruct (truthy _); repeat split; reflexivity.
  - assert (Hd : Map_delete k (macros (this st)) = macros (this st)).
    { revert Hget. induction (macros (this st)) as [|[k' v'] m IH]; simpl; [reflexivity|].
      destruct (String.eqb k k'); [discriminate|]. intros H. rewrite (IH H). reflexivity. }
    rewrite Hd. repeat split; reflexivity.
Qed.

(** The methods that write on one record. *)
Lemma assign_state (c : string -> M World bool) (f : RegisteredMacro World -> RegisteredMacro World)
    (k : string) st :
  (c = enable /\ f = set_enabled true)
  \/ (c = disable /\ f = set_enabled false)
  \/ (c = toggle /\ f = (fun r => set_enabled (negb (enabled r)) r))
  \/ (exists u, c = (fun k => update k u) /\ f = Object_assign u) ->
  let st' := snd (c k st) in
  this st' = this st
  /\ heap st' =
       match Map_get k (macros (this st)) with
       | Some l => alter f l (heap st)
       | None => heap st
       end
  /\ keydown st' = keydown st
  /\ world st' = world st.
Proof.
  intros [[-> ->]|[[-> ->]|[[-> ->]|(u & -> & ->)]]];
    unfold enable, disable, toggle, update, bind, gets, assign, deref, modify, ret; simpl;
    (destruct (Map_get k (macros (this st))) as [l|]; simpl;
     [rewrite debug_log_eq; simpl; destruct (truthy _)|]; repeat split; reflexivity).
Qed.

Lemma clear_state st :
  let st' := snd (clear st) in
  macros (this st') = []
  /\ heap st' = heap st
  /\ isListening (this st') = isListening (this st)
  /\ keydown st' = keydown st
  /\ same_host st st'.
Proof.
  unfold clear, bind, modify. simpl. rewrite debug_log_eq. simpl.
  destruct (truthy _); repeat split; reflexivity.
Qed.

Lemma handleKeyPress_state event st :
  fst (handleKeyPress toLowerCase event st) = Normal tt
  /\ this (snd (handleKeyPress toLowerCase event st)) = this st
  /\ heap (snd (handleKeyPress toLowerCase event st)) = heap st
  /\ keydown (snd (handleKeyPress toLowerCase event st)) = keydown st.
Proof.
  destruct (from_text_entry toLowerCase event) eqn:Htag.
  - rewrite (handleKeyPress_text_entry _ _ _ Htag). repeat split; reflexivity.
  - destruct (handleKeyPress_spec toLowerCase event st Htag) as (w & Hrun & _).
    rewrite Hrun. repeat split; reflexivity.
Qed.

Lemma In_Map_delete {V : Type} (k k0 : string) (v : V) (m : list (string * V)) :
  In (k, v) (Map_delete k0 m) -> In (k, v) m.
Proof.
  induction m as [|[k' v'] m IH]; simpl; [tauto|].
  destruct (String.eqb k0 k'); simpl; [tauto|].
  intros [H|H]; [left; exact H|right; exact (IH H)].
Qed.

Lemma NoDup_Map_delete {V : Type} (k0 : string) (m : list (string * V)) :
  (NoDup (Map_keys m) -> NoDup (Map_keys (Map_delete k0 m)))
  /\ (NoDup (Map_values m) -> NoDup (Map_values (Map_delete k0 m))).
Proof.
  unfold Map_keys, Map_values. induction m as [|[k' v'] m [IHk IHv]]; simpl; [auto|].
  destruct (String.eqb k0 k'); simpl.
  - split; intros H; apply NoDup_cons in H; tauto.
  - split; intros H; apply NoDup_cons in H as [Hnin Hnd]; apply NoDup_cons.
    + split; [|auto]. intros Hin. apply Hnin. apply list_elem_of_In.
      apply list_elem_of_In in Hin. apply in_map_iff in Hin as ([k v] & <- & Hin).
      apply In_Map_delete in Hin. apply (in_map fst) in Hin. exact Hin.
    + split; [|auto]. intros Hin. apply Hnin. apply list_elem_of_In.
      apply list_elem_of_In in Hin. apply in_map_iff in Hin as ([k v] & <- & Hin).
      apply In_Map_delete in Hin. apply (in_map snd) in Hin. exact Hin.
Qed.

Lemma wf_same st st' :
  wf st -> macros (this st') = macros (this st) -> heap st' = heap st -> wf st'.
Proof. unfold wf. intros H -> ->. exact H. Qed.

Lemma wf_alter st st' l (f : RegisteredMacro World -> RegisteredMacro World) :
  (forall r, id (f r) = id r) ->
  wf st -> this st' = this st -> heap st' = alter f l (heap st) -> wf st'.
Proof.
  unfold wf. intros Hid (Hk & Hv & Hrec) -> ->. split; [exact Hk|]. split; [exact Hv|].
  intros k l' Hin. destruct (Hrec k l' Hin) as (r & Hr & Hidr).
  destruct (Nat.eq_dec l l') as [->|Hne].
  - exists (f r). rewrite list_lookup_alter_eq, Hr. split; [reflexivity|].
    rewrite Hid. exact Hidr.
  - exists r. rewrite list_lookup_alter_ne; auto.
Qed.

(** Every call of a client keeps the state well formed. *)
Lemma step_wf (c : ApiCall World) st : wf st -> wf (step toLowerCase c st).
Proof.
  intros Hwf. destruct c as [k combo act desc|k|k|k|k|k u| | | |event]; simpl.
  - pose proof (register_state k combo act desc st) as H. simpl in H.
    destruct (Map_get k (macros (this st))) eqn:Hget; [rewrite H; exact Hwf|].
    destruct H as (Hm & Hh & _). destruct Hwf as (Hk & Hv & Hrec).
    unfold wf. rewrite Hm, Hh. unfold Map_keys, Map_values. rewrite !map_app. simpl.
    assert (Hlt : forall k' l', In (k', l') (macros (this st)) -> l' < length (heap st)).
    { intros k' l' Hin. destruct (Hrec k' l' Hin) as (r & Hr & _).
      apply lookup_lt_Some in Hr. exact Hr. }
    split; [|split].
    + apply NoDup_app. split; [exact Hk|]. split; [|apply NoDup_singleton].
      intros k' Hin Hin'. apply list_elem_of_In in Hin, Hin'. simpl in Hin'.
      destruct Hin' as [<-|[]]. apply in_map_iff in Hin as ([k1 l1] & Heq & Hin).
      simpl in Heq. subst k1.
      assert (Hsome : exists v, Map_get k (macros (this st)) = Some v).
      { clear -Hin. induction (macros (this st)) as [|[k' v'] m IH]; [destruct Hin|].
        simpl. destruct (String.eqb k k') eqn:Hkk; [eauto|].
        destruct Hin as [Heq|Hin]; [|exact (IH Hin)].
        injection Heq as -> ->. rewrite String.eqb_refl in Hkk. discriminate. }
      destruct Hsome as [v Hsome]. congruence.
    + apply NoDup_app. split; [exact Hv|]. split; [|apply NoDup_singleton].
      intros l' Hin Hin'. apply list_elem_of_In in Hin, Hin'. simpl in Hin'.
      destruct Hin' as [<-|[]]. apply in_map_iff in Hin as ([k1 l1] & Heq & Hin).
      simpl in Heq. subst l1. apply Hlt in Hin. lia.
    + intros k' l' Hin. apply in_app_or in Hin as [Hin|[Heq|[]]].
      * destruct (Hrec k' l' Hin) as (r & Hr & Hidr). exists r.
        split; [apply lookup_app_l_Some; exact Hr|exact Hidr].
      * injection Heq as <- <-. eexists. split; [apply list_lookup_middle; reflexivity|].
        reflexivity.
  - destruct (unregister_state k st) as (Hm & Hh & _).
    destruct Hwf as (Hk & Hv & Hrec). unfold wf. rewrite Hm, Hh.
    destruct (NoDup_Map_delete k (macros (this st))) as [Hdk Hdv].
    split; [auto|]. split; [auto|].
    intros k' l' Hin. apply In_Map_delete in Hin. auto.
  - destruct (assign_state enable (set_enabled true) k st) as (Ht & Hh & _); [tauto|].
    destruct (Map_get k (macros (this st))) as [l|].
    + apply (wf_alter st _ l (set_enabled true)); auto.
    + eapply wf_same; eauto. congruence.
  - destruct (assign_state disable (set_enabled false) k st) as (Ht & Hh & _); [tauto|].
    destruct (Map_get k (macros (this st))) as [l|].
    + apply (wf_alter st _ l (set_enabled false)); auto.
    + eapply wf_same; eauto. congruence.
  - destruct (assign_state toggle (fun r => set_enabled (negb (enabled r)) r) k st)
      as (Ht & Hh & _); [tauto|].
    destruct (Map_get k (macros (this st))) as [l|].
    + apply (wf_alter st _ l (fun r => set_enabled (negb (enabled r)) r)); auto.
    + eapply wf_same; eauto. congruence.
  - destruct (assign_state (fun k => update k u) (Object_assign u) k st)
      as (Ht & Hh & _); [right; right; right; eauto|].
    destruct (Map_get k (macros (this st))) as [l|].
    + apply (wf_alter st _ l (Object_assign u)); auto.
    + eapply wf_same; eauto. congruence.
  - destruct (clear_state st) as (Hm & Hh & _). unfold wf. rewrite Hm, Hh. simpl.
    split; [apply NoDup_nil_2|]. split; [apply NoDup_nil_2|]. intros k l [].
  - destruct (start_spec st) as (st' & Hrun & _ & _ & _ & _ & Hm & _ & Hh).
    rewrite Hrun. simpl. eapply wf_same; eauto.
  - destruct (stop_spec st) as (st' & Hrun & _ & _ & _ & _ & Hm & _ & Hh).
    rewrite Hrun. simpl. eapply wf_same; eauto.
  - destruct (handleKeyPress_state event st) as (_ & Ht & Hh & _).
    eapply wf_same; eauto. congruence.
Qed.

(** No call of a client changes the configuration or the cached callback. *)
Lemma step_config (c : ApiCall World) st :
  options (this (step toLowerCase c st)) = options (this st)
  /\ listenerFn (this (step toLowerCase c st)) = listenerFn (this st).
Proof.
  destruct c as [k combo act desc|k|k|k|k|k u| | | |event]; simpl.
  - pose proof (register_state k combo act desc st) as H. simpl in H.
    destruct (Map_get k (macros (this st))); [rewrite H; auto|].
    destruct H as (_ & _ & _ & _ & Ho & Hf & _). auto.
  - destruct (unregister_state k st) as (_ & _ & _ & _ & Ho & Hf & _). auto.
  - destruct (assign_state enable (set_enabled true) k st) as (-> & _); [tauto|auto].
  - destruct (assign_state disable (set_enabled false) k st) as (-> & _); [tauto|auto].
  - destruct (assign_state toggle (fun r => set_enabled (negb (enabled r)) r) k st)
      as (-> & _); [tauto|auto].
  - destruct (assign_state (fun k => update k u) (Object_assign u) k st)
      as (-> & _); [right; right; right; eauto|auto].
  - destruct (clear_state st) as (_ & _ & _ & _ & Ho & Hf & _). auto.
  - destruct (start_spec st) as (st' & -> & _ & _ & _ & Hf & _ & Ho & _). auto.
  - destruct (stop_spec st) as (st' & -> & _ & _ & _ & Hf & _ & Ho & _). auto.
  - destruct (handleKeyPress_state event st) as (_ & -> & _). auto.
Qed.

Lemma steps_wf (cs : list (ApiCall World)) st : wf st -> wf (steps toLowerCase cs st).
Proof.
  revert st. induction cs as [|c cs IH]; intros st Hwf; [exact Hwf|].
  simpl. apply IH. apply step_wf. exact Hwf.
Qed.

Lemma steps_config (cs : list (ApiCall World)) st :
  options (this (steps toLowerCase cs st)) = options (this st)
  /\ listenerFn (this (steps toLowerCase cs st)) = listenerFn (this st).
Proof.
  revert st. induction cs as [|c cs IH]; intros st; [auto|].
  simpl. destruct (IH (step toLowerCase c st)) as [-> ->]. apply step_config.
Qed.

(** Every call of a client keeps the flag in step with the listeners. *)
Lemma step_listening_inv (c : ApiCall World) st :
  listening_inv st -> listening_inv (step toLowerCase c st).
Proof.
  unfold listening_inv. intros Hinv.
  destruct c as [k combo act desc|k|k|k|k|k u| | | |event]; simpl.
  - pose proof (register_state k combo act desc st) as H. simpl in H.
    destruct (Map_get k (macros (this st))); [rewrite H; exact Hinv|].
    destruct H as (_ & _ & -> & -> & _ & -> & _). exact Hinv.
  - destruct (unregister_state k st) as (_ & _ & -> & -> & _ & -> & _). exact Hinv.
  - destruct (assign_state enable (set_enabled true) k st) as (-> & _ & -> & _);
      [tauto|exact Hinv].
  - destruct (assign_state disable (set_enabled false) k st) as (-> & _ & -> & _);
      [tauto|exact Hinv].
  - destruct (assign_state toggle (fun r => set_enabled (negb (enabled r)) r) k st)
      as (-> & _ & -> & _); [tauto|exact Hinv].
  - destruct (assign_state (fun k => update k u) (Object_assign u) k st)
      as (-> & _ & -> & _); [right; right; right; eauto|exact Hinv].
  - destruct (clear_state st) as (_ & _ & -> & -> & _ & -> & _). exact Hinv.
  - destruct (run_call_inv CallStart st Hinv) as (st' & Hrun & Hinv' & _).
    simpl in Hrun. rewrite Hrun. exact Hinv'.
  - destruct (run_call_inv CallStop st Hinv) as (st' & Hrun & Hinv' & _).
    simpl in Hrun. rewrite Hrun. exact Hinv'.
  - destruct (handleKeyPress_state event st) as (_ & -> & _ & ->). exact Hinv.
Qed.

Lemma steps_listening_inv (cs : list (ApiCall World)) st :
  listening_inv st -> listening_inv (steps toLowerCase cs st).
Proof.
  revert st. induction cs as [|c cs IH]; intros st Hinv; [exact Hinv|].
  simpl. apply IH. apply step_listening_inv. exact Hinv.
Qed.

(** In a well-formed state a record that fires is invoked once, and one
    that does not fire is not invoked. *)
Lemma dispatch_invokes_once event st (k : string) l r :
  wf st ->
  from_text_entry toLowerCase event = false ->
  In (k, l) (macros (this st)) ->
  heap st !! l = Some r ->
  calls (Invoke l) (dispatch_trace toLowerCase event st) =
    if triggers toLowerCase event r then 1 else 0.
Proof.
  intros (_ & Hv & _) Htag Hin Hr.
  destruct (handleKeyPress_spec toLowerCase event st Htag) as (w & _ & Hinv & _).
  rewrite Hinv.
  assert (Hle : count_occ Nat.eq_dec (matching toLowerCase event st) l <= 1).
  { apply NoDup_ListNoDup in Hv.
    apply (proj1 (NoDup_count_occ Nat.eq_dec _)).
    unfold matching. apply List.NoDup_filter. exact Hv. }
  pose proof (count_pos_In (matching toLowerCase event st) l) as Hpos.
  rewrite In_matching in Hpos. unfold fires in Hpos. rewrite Hr in Hpos.
  destruct (triggers toLowerCase event r).
  - assert (0 < count_occ Nat.eq_dec (matching toLowerCase event st) l).
    { apply Hpos. split; [eapply In_Map_values; eassumption|reflexivity]. }
    lia.
  - destruct (count_occ Nat.eq_dec (matching toLowerCase event st) l) as [|n]; [reflexivity|].
    assert (Hf : false = true) by (apply Hpos; lia). discriminate.
Qed.

(** A new instance is well formed. *)
Lemma constructor_wf (opts : option OptionsLiteral) st : wf (snd (constructor opts st)).
Proof.
  unfold wf. simpl. split; [apply NoDup_nil_2|]. split; [apply NoDup_nil_2|].
  intros k l [].
Qed.
End Invariants.

Section Snapshots.
Context {World : Type}.
Implicit Types (st : State World) (l : loc) (r : RegisteredMacro World).



Lemma wf_refs_valid st :
  wf st -> Forall (fun l => l < length (heap st)) (Map_values (macros (this st))).
Proof.
  intros (_ & _ & Hrec). apply List.Forall_forall. intros l Hin.
  apply in_map_iff in Hin as ([k l'] & <- & Hin).
  destruct (Hrec k l' Hin) as (r & Hr & _). apply lookup_lt_Some in Hr. exact Hr.
Qed.
End Snapshots.

Section SnapshotsLater.
Variable toLowerCase : string -> string.
Context {World : Type}.
Implicit Types (st : State World) (l : loc) (r : RegisteredMacro World).




End SnapshotsLater.

Section Configuration.
Variable toLowerCase : string -> string.
Context {World : Type}.
Implicit Types (st : State World).

(** C10: the configuration of a new instance has, for each key, the value
    the options literal supplies, also when that value is [undefined],
    and the default ([preventDefault] true, [stopPropagation] false,
    [debug] false) when the literal omits the key or no literal is
    given.  With
    [preventDefault] supplied as [undefined], no dispatch of the
    instance, after any calls of its clients, calls
    [event.preventDefault]. *)
Theorem constructor_spreads_options (o : OptionsLiteral) (st0 : State World) :
  (forall v, lit_preventDefault o = Supplied v ->
     preventDefault (options (this (snd (constructor (Some o) st0)))) = v)
  /\ (lit_preventDefault o = Omitted ->
     preventDefault (options (this (snd (constructor (Some o) st0)))) = Some true)
  /\ (forall v, lit_stopPropagation o = Supplied v ->
     stopPropagation (options (this (snd (constructor (Some o) st0)))) = v)
  /\ (lit_stopPropagation o = Omitted ->
     stopPropagation (options (this (snd (constructor (Some o) st0)))) = Some false)
  /\ (forall v, lit_debug o = Supplied v ->
     debug (options (this (snd (constructor (Some o) st0)))) = v)
  /\ (lit_debug o = Omitted ->
     debug (options (this (snd (constructor (Some o) st0)))) = Some false)
  /\ options (this (snd (constructor None st0))) =
       {| preventDefault := Some true; stopPropagation := Some false;
          debug := Some false |}
  /\ (lit_preventDefault o = Supplied None ->
      forall (cs : list (ApiCall World)) event,
        ~ In EventPreventDefault
            (dispatch_trace toLowerCase event
               (steps toLowerCase cs (snd (constructor (Some o) st0))))).
Proof.
  repeat (split; [first [intros v Hv; simpl; rewrite Hv; reflexivity
                        |intros Hv; simpl; rewrite Hv; reflexivity
                        |reflexivity]|]).
  intros Hpd cs event.
  set (st := steps toLowerCase cs (snd (constructor (Some o) st0))).
  assert (Hcfg : preventDefault (options (this st)) = None).
  { unfold st. destruct (steps_config toLowerCase cs (snd (constructor (Some o) st0)))
      as [-> _]. simpl. rewrite Hpd. reflexivity. }
  destruct (from_text_entry toLowerCase event) eqn:Htag.
  - unfold dispatch_trace. rewrite (handleKeyPress_text_entry _ _ _ Htag). simpl.
    rewrite drop_all. intros [].
  - destruct (handleKeyPress_spec toLowerCase event st Htag) as (w & _ & _ & Hcalls & _).
    rewrite Hcfg in Hcalls. simpl in Hcalls. rewrite calls_In, Hcalls. lia.
Qed.
End Configuration.

(** ** The scenarios of the test suite, run on the model *)

Example scenario_save_fires :
  dispatch_trace lower (key_event "S" true "div") save_registered
    = [EventPreventDefault; Invoke 0]
  /\ world (snd (handleKeyPress lower (key_event "S" true "div") save_registered)) = 1.
Proof. split; reflexivity. Qed.

Example scenario_input_ignored :
  handleKeyPress lower (key_event "s" true "INPUT") save_registered
    = (Normal tt, save_registered).
Proof. reflexivity. Qed.

Example scenario_mismatch :
  dispatch_trace lower (key_event "b" true "DIV") save_registered = []
  /\ dispatch_trace lower (key_event "s" false "DIV") save_registered = [].
Proof. split; reflexivity. Qed.

Example scenario_two_on_x :
  dispatch_trace lower (key_event "x" false "DIV") (two_on_x None)
    = [EventPreventDefault; Invoke 0;
       ConsoleError (error_message "first") (Error "Test error");
       EventPreventDefault; Invoke 1].
Proof. reflexivity. Qed.

Example scenario_duplicate :
  fst (register "save" (chord "b" false) bump None save_registered)
    = Throw (Error (duplicate_message "save")).
Proof. reflexivity. Qed.

Example scenario_toggle_twice :
  enabled <$> heap (steps lower [CToggle "save"] save_registered) !! 0 = Some false
  /\ enabled <$> heap (steps lower [CToggle "save"; CToggle "save"] save_registered) !! 0
       = Some true.
Proof. split; reflexivity. Qed.

Example scenario_clear :
  fst (getAll (steps lower [CStart; CClear] (two_on_x None))) = Normal []
  /\ isListening (this (steps lower [CStart; CClear] (two_on_x None))) = true.
Proof. split; reflexivity. Qed.

Example scenario_debug_label :
  effects (snd (register "m" {| KeyCombo.key := "s"; KeyCombo.ctrl := Some true;
                                KeyCombo.alt := Some true; KeyCombo.shift := None;
                                KeyCombo.meta := Some false |} bump None
                  (fresh_manager (Some {| lit_preventDefault := Omitted;
                                          lit_stopPropagation := Omitted;
                                          lit_debug := Supplied (Some true) |}))))
    = [ConsoleLog ("MacroManager: Registered macro " ++ dquote ++ "m" ++ dquote ++
                   " with key combination " ++ dquote ++ "Ctrl+Alt+s" ++ dquote)].
Proof. reflexivity. Qed.

(** ** The theorems at concrete instances *)

Lemma dispatch_invokes_iff_witness :
  from_text_entry lower (key_event "S" true "DIV") = false
  /\ In ("save", 0) (macros (this save_registered))
  /\ heap save_registered !! 0 = Some save_record
  /\ In (Invoke 0) (dispatch_trace lower (key_event "S" true "DIV") save_registered)
  /\ world save_registered = 0
  /\ world (snd (handleKeyPress lower (key_event "S" true "DIV") save_registered))
       = snd (action save_record 0)
  /\ snd (action save_record 0) = 1.
Proof.
  split; [reflexivity|]. split; [left; reflexivity|]. split; [reflexivity|].
  destruct (dispatch_invokes_iff lower (key_event "S" true "DIV") save_registered "save" 0
              save_record eq_refl (or_introl eq_refl) eq_refl)
    as (Hiff & Hworld & Hrun).
  assert (Hran : In (Invoke 0)
                   (dispatch_trace lower (key_event "S" true "DIV") save_registered)).
  { apply Hiff. repeat split. }
  split; [exact Hran|]. split; [reflexivity|]. split; [|reflexivity].
  rewrite Hworld. reflexivity.
Defined.



Lemma text_entry_event_discarded_witness :
  In (lower (tagName (KeyboardEvent.target (key_event "s" true "TextArea"))))
     ["input"; "textarea"; "select"]
  /\ handleKeyPress lower (key_event "s" true "TextArea") save_registered
       = (Normal tt, save_registered).
Proof.
  split; [right; left; reflexivity|].
  apply (text_entry_event_discarded lower (key_event "s" true "TextArea") save_registered).
  right. left. reflexivity.
Defined.

Lemma suppression_once_per_match_witness :
  length (matching lower (key_event "x" false "DIV") (two_on_x (Some stopPropagation_true))) = 2
  /\ calls EventPreventDefault
       (dispatch_trace lower (key_event "x" false "DIV") (two_on_x (Some stopPropagation_true))) = 2
  /\ calls EventStopPropagation
       (dispatch_trace lower (key_event "x" false "DIV") (two_on_x (Some stopPropagation_true))) = 2.
Proof.
  split; [reflexivity|].
  pose proof (suppression_once_per_match lower (key_event "x" false "DIV")
                (two_on_x (Some stopPropagation_true)) 2 eq_refl eq_refl) as [Hpd Hsp].
  split; [apply Hpd; reflexivity|apply Hsp; reflexivity].
Defined.

Lemma unmatched_event_passes_through_witness :
  from_text_entry lower (key_event "s" false "DIV") = false
  /\ handleKeyPress lower (key_event "s" false "DIV") save_registered
       = (Normal tt, save_registered)
  /\ dispatch_trace lower (key_event "s" false "DIV") save_registered = [].
Proof.
  split; [reflexivity|].
  apply (unmatched_event_passes_through lower (key_event "s" false "DIV") save_registered).
  - reflexivity.
  - intros k l r [Hin|[]] Hr. injection Hin as <- <-.
    injection Hr as <-. reflexivity.
Defined.

Lemma register_duplicate_or_insert_witness :
  register "save" (chord "b" false) bump None save_registered
    = (Throw (Error ("MacroManager: Macro with ID " ++ dquote ++ "save" ++ dquote ++
                     " already exists")), save_registered)
  /\ (exists st' l,
        register "open" (chord "o" true) bump None save_registered = (Normal "open", st')
        /\ macros (this st') = macros (this save_registered) ++ [("open", l)]
        /\ enabled <$> heap st' !! l = Some true).
Proof.
  split.
  - apply (proj1 (register_duplicate_or_insert "save" (chord "b" false) bump None
                    save_registered)).
    reflexivity.
  - destruct (proj2 (register_duplicate_or_insert "open" (chord "o" true) bump None
                       save_registered) eq_refl)
      as (st' & l & Hrun & Hm & _ & _ & Hnew & _).
    exists st', l. split; [exact Hrun|]. split; [exact Hm|].
    rewrite Hnew. reflexivity.
Defined.

Lemma missing_id_noop_and_update_partial_witness :
  toggle "open" save_registered = (Normal false, save_registered)
  /\ (exists st' r',
        update "save" {| upd_keyCombo := Omitted; upd_action := Omitted;
                         upd_description := Supplied None; upd_enabled := Supplied false |}
          save_registered = (Normal true, st')
        /\ heap st' !! 0 = Some r'
        /\ id r' = "save" /\ keyCombo r' = chord "s" true
        /\ description r' = None /\ enabled r' = false).
Proof.
  split.
  - apply (proj1 (missing_id_noop_and_update_partial "open" save_registered)).
    reflexivity.
  - destruct (proj2 (missing_id_noop_and_update_partial "save" save_registered) 0
                {| id := "save"; keyCombo := chord "s" true; action := bump;
                   description := Some "Save the current document"; enabled := true |}
                {| upd_keyCombo := Omitted; upd_action := Omitted;
                   upd_description := Supplied None; upd_enabled := Supplied false |}
                eq_refl eq_refl)
      as (st' & r' & Hrun & _ & Hr' & Hid & Hk & _ & Hd & He & _).
    exists st', r'. repeat split; assumption.
Defined.

Lemma listening_iff_one_handler_witness :
  exists st',
    for_of [CallStart; CallStart; CallStop; CallStop; CallStart] run_call
      (snd (constructor None (set_keydown (fun _ => [7; 3]) blank))) = (Normal tt, st')
    /\ isListening (this st') = true
    /\ attached (listenerFn (this st')) (keydown st') = 1
    /\ start st' = (Normal tt, st').
Proof.
  destruct (listening_iff_one_handler None [CallStart; CallStart; CallStop; CallStop; CallStart]
              (set_keydown (fun _ => [7; 3]) blank))
    as (st' & Hrun & _ & Hon & _ & _ & Hstart & _).
  exists st'. split; [exact Hrun|].
  assert (Hl : isListening (this st') = true).
  { injection Hrun as <-. reflexivity. }
  split; [exact Hl|]. split; [apply Hon; exact Hl|apply Hstart; exact Hl].
Defined.


Lemma constructor_spreads_options_witness :
  preventDefault (options (this (snd (constructor (Some preventDefault_undefined) blank))))
    = None
  /\ stopPropagation (options (this (snd (constructor (Some preventDefault_undefined) blank))))
    = Some false
  /\ ~ In EventPreventDefault
         (dispatch_trace lower (key_event "x" false "DIV")
            (two_on_x (Some preventDefault_undefined)))
  /\ In (Invoke 1)
        (dispatch_trace lower (key_event "x" false "DIV")
           (two_on_x (Some preventDefault_undefined))).
Proof.
  destruct (constructor_spreads_options lower preventDefault_undefined blank)
    as (Hpd & _ & _ & Hsp & _ & _ & _ & Hnever).
  split; [apply Hpd; reflexivity|]. split; [apply Hsp; reflexivity|].
  split; [|vm_compute; tauto].
  exact (Hnever eq_refl
           [CRegister "first" (chord "x" false) boom None;
            CRegister "second" (chord "x" false) bump None]
           (key_event "x" false "DIV")).
Defined.

(** C7 as the spec words it, for every key-down event, fails on an event
    from a text-entry element: with [save] registered on Ctrl+s and
    [preventDefault] on by default, Ctrl+s typed in an [INPUT] has one
    matching enabled record and [event.preventDefault] is not called. *)
Lemma suppression_skipped_on_text_entry :
  length (matching lower (key_event "s" true "INPUT") save_registered) = 1
  /\ truthy (preventDefault (options (this save_registered))) = true
  /\ calls EventPreventDefault
       (dispatch_trace lower (key_event "s" true "INPUT") save_registered) = 0.
Proof. repeat split. Qed.


(** ** Further properties of the registry *)

Section RegistryPure.
Context {World : Type}.
Implicit Types (st : State World) (l : loc) (r : RegisteredMacro World).

Lemma Map_get_None_keys {V : Type} (k : string) (m : list (string * V)) :
  Map_get k m = None <-> ~ In k (Map_keys m).
Proof.
  unfold Map_keys. induction m as [|[k' v'] m IH]; simpl; [tauto|].
  destruct (String.eqb_spec k k') as [->|Hne].
  - split; [discriminate|]. intros H. exfalso. apply H. left. reflexivity.
  - rewrite IH. split; [intros H [Heq|Hin]; [congruence|tauto]|tauto].
Qed.

Lemma Map_get_delete_ne {V : Type} (k k0 : string) (m : list (string * V)) :
  k0 <> k -> Map_get k0 (Map_delete k m) = Map_get k0 m.
Proof.
  intros Hne. induction m as [|[k' v'] m IH]; simpl; [reflexivity|].
  destruct (String.eqb_spec k k') as [->|Hkk]; simpl.
  - apply String.eqb_neq in Hne. rewrite Hne. reflexivity.
  - destruct (String.eqb k0 k'); [reflexivity|exact IH].
Qed.

Lemma Map_keys_delete {V : Type} (k : string) (m : list (string * V)) :
  NoDup (Map_keys m) ->
  Map_keys (Map_delete k m) = List.filter (fun k' => negb (String.eqb k k')) (Map_keys m).
Proof.
  unfold Map_keys. induction m as [|[k' v'] m IH]; simpl; [reflexivity|].
  intros Hnd. apply NoDup_cons in Hnd as [Hnin Hnd].
  destruct (String.eqb_spec k k') as [->|Hkk]; simpl.
  - symmetry. apply List.forallb_filter_id. apply forallb_forall.
    intros k0 Hin. apply negb_true_iff. apply String.eqb_neq. intros ->.
    apply Hnin. apply list_elem_of_In. exact Hin.
  - rewrite (IH Hnd). reflexivity.
Qed.

Lemma Map_get_delete_eq {V : Type} (k : string) (m : list (string * V)) :
  NoDup (Map_keys m) -> Map_get k (Map_delete k m) = None.
Proof.
  intros Hnd. apply Map_get_None_keys. rewrite (Map_keys_delete k m Hnd).
  intros Hin. apply List.filter_In in Hin as [_ Hne].
  rewrite String.eqb_refl in Hne. discriminate.
Qed.

Lemma Map_delete_app_fresh {V : Type} (k : string) (v : V) (m : list (string * V)) :
  Map_get k m = None -> Map_delete k (m ++ [(k, v)]) = m.
Proof.
  induction m as [|[k' v'] m IH]; simpl.
  - rewrite String.eqb_refl. reflexivity.
  - destruct (String.eqb k k'); [discriminate|]. intros H. rewrite (IH H). reflexivity.
Qed.

Lemma Map_values_delete {V : Type} (k : string) (v : V) (m : list (string * V)) :
  NoDup (Map_keys m) -> NoDup (Map_values m) -> Map_get k m = Some v ->
  ~ In v (Map_values (Map_delete k m)).
Proof.
  unfold Map_keys, Map_values. induction m as [|[k' v'] m IH]; simpl; [discriminate|].
  intros Hk Hv. apply NoDup_cons in Hk as [Hkn Hk]. apply NoDup_cons in Hv as [Hvn Hv].
  destruct (String.eqb_spec k k') as [->|Hkk].
  - intros [= ->]. intros Hin. apply Hvn. apply list_elem_of_In. exact Hin.
  - intros Hget. simpl. intros [->|Hin]; [|exact (IH Hk Hv Hget Hin)].
    apply Hvn. apply list_elem_of_In. apply Map_get_In in Hget.
    apply (in_map snd) in Hget. exact Hget.
Qed.

Lemma set_enabled_same r : set_enabled (enabled r) r = r.
Proof. destruct r; reflexivity. Qed.

Lemma unregister_run (k : string) st :
  unregister k st =
    (Normal (Map_has k (macros (this st))), snd (unregister k st)).
Proof.
  unfold unregister, bind, gets, modify, ret. simpl.
  destruct (Map_has k (macros (this st))); [|reflexivity].
  rewrite debug_log_eq. reflexivity.
Qed.

Lemma assign_run (c : string -> M World bool) (f : RegisteredMacro World -> RegisteredMacro World)
    (k : string) st :
  (c = enable /\ f = set_enabled true)
  \/ (c = disable /\ f = set_enabled false)
  \/ (c = toggle /\ f = (fun r => set_enabled (negb (enabled r)) r))
  \/ (exists u, c = (fun k => update k u) /\ f = Object_assign u) ->
  fst (c k st) = Normal (Map_has k (macros (this st))).
Proof.
  intros [[-> ->]|[[-> ->]|[[-> ->]|(u & -> & ->)]]];
    unfold enable, disable, toggle, update, Map_has, bind, gets, assign, deref, modify, ret;
    simpl;
    (destruct (Map_get k (macros (this st))) as [l|]; simpl;
     [rewrite debug_log_eq|]; reflexivity).
Qed.

(** X4: [toggle] is its own inverse: after two calls on the same id the
    instance, every record, the listeners and the host's state are as
    they were (only the console may have two more lines). *)
Theorem toggle_twice (k : string) st :
  this (snd (toggle k (snd (toggle k st)))) = this st
  /\ heap (snd (toggle k (snd (toggle k st)))) = heap st
  /\ keydown (snd (toggle k (snd (toggle k st)))) = keydown st
  /\ world (snd (toggle k (snd (toggle k st)))) = world st.
Proof.
  destruct (assign_state toggle (fun r => set_enabled (negb (enabled r)) r) k st)
    as (Ht1 & Hh1 & Hk1 & Hw1); [tauto|].
  destruct (assign_state toggle (fun r => set_enabled (negb (enabled r)) r) k
              (snd (toggle k st))) as (Ht2 & Hh2 & Hk2 & Hw2); [tauto|].
  rewrite Ht2, Hh2, Hk2, Hw2, Ht1, Hh1, Hk1, Hw1.
  repeat split; try reflexivity.
  destruct (Map_get k (macros (this st))) as [l|]; [|reflexivity].
  rewrite list_alter_alter_eq. apply list_alter_id.
  intros [i c a d e]. simpl. unfold set_enabled. simpl. rewrite negb_involutive. reflexivity.
Qed.

(** X5: on a registered id, [enable], [disable] and [toggle] return true
    and write the [enabled] flag of that id's record (true, false, the
    negation) and nothing else: the record's other fields, the other
    records, the [Map], the listeners and the host's state stay. *)
Theorem set_flag_present (k : string) st l r :
  Map_get k (macros (this st)) = Some l ->
  heap st !! l = Some r ->
  forall (c : string -> M World bool) (b : bool),
    (c = enable /\ b = true) \/ (c = disable /\ b = false)
    \/ (c = toggle /\ b = negb (enabled r)) ->
    fst (c k st) = Normal true
    /\ this (snd (c k st)) = this st
    /\ heap (snd (c k st)) !! l =
         Some {| id := id r; keyCombo := keyCombo r; action := action r;
                 description := description r; enabled := b |}
    /\ (forall l', l' <> l -> heap (snd (c k st)) !! l' = heap st !! l')
    /\ keydown (snd (c k st)) = keydown st
    /\ world (snd (c k st)) = world st.
Proof.
  intros Hl Hr c b Hc.
  assert (Hhas : Map_has k (macros (this st)) = true).
  { unfold Map_has. rewrite Hl. reflexivity. }
  destruct Hc as [[-> ->]|[[-> ->]|[-> ->]]].
  - rewrite (assign_run enable (set_enabled true)), Hhas by tauto.
    destruct (assign_state enable (set_enabled true) k st) as (-> & -> & -> & ->); [tauto|].
    rewrite Hl. split; [reflexivity|]. split; [reflexivity|].
    split; [rewrite list_lookup_alter_eq, Hr; reflexivity|].
    split; [intros l' Hne; apply list_lookup_alter_ne; congruence|]. split; reflexivity.
  - rewrite (assign_run disable (set_enabled false)), Hhas by tauto.
    destruct (assign_state disable (set_enabled false) k st) as (-> & -> & -> & ->); [tauto|].
    rewrite Hl. split; [reflexivity|]. split; [reflexivity|].
    split; [rewrite list_lookup_alter_eq, Hr; reflexivity|].
    split; [intros l' Hne; apply list_lookup_alter_ne; congruence|]. split; reflexivity.
  - rewrite (assign_run toggle (fun r => set_enabled (negb (enabled r)) r)), Hhas by tauto.
    destruct (assign_state toggle (fun r => set_enabled (negb (enabled r)) r) k st)
      as (-> & -> & -> & ->); [tauto|].
    rewrite Hl. split; [reflexivity|]. split; [reflexivity|].
    split; [rewrite list_lookup_alter_eq, Hr; reflexivity|].
    split; [intros l' Hne; apply list_lookup_alter_ne; congruence|]. split; reflexivity.
Qed.

(** X7: in a well-formed state, [unregister] of a registered id returns
    true and removes that id only: [get] of it then finds nothing, [get]
    of any other id finds what it found, the other ids keep their order,
    and no record object is touched. *)
Theorem unregister_present (k : string) st :
  wf st ->
  Map_has k (macros (this st)) = true ->
  fst (unregister k st) = Normal true
  /\ fst (get k (snd (unregister k st))) = Normal None
  /\ (forall k', k' <> k ->
        fst (get k' (snd (unregister k st))) = fst (get k' st))
  /\ Map_keys (macros (this (snd (unregister k st)))) =
       List.filter (fun k' => negb (String.eqb k k')) (Map_keys (macros (this st)))
  /\ heap (snd (unregister k st)) = heap st
  /\ keydown (snd (unregister k st)) = keydown st
  /\ isListening (this (snd (unregister k st))) = isListening (this st).
Proof.
  intros (Hk & _) Hhas.
  destruct (unregister_state k st) as (Hm & Hh & Hl & Hkd & _).
  rewrite unregister_run, Hhas. unfold get, gets. simpl. rewrite Hm, Hh, Hl, Hkd.
  split; [reflexivity|].
  split; [rewrite (Map_get_delete_eq k _ Hk); reflexivity|].
  split; [intros k' Hne; rewrite (Map_get_delete_ne k k' _ Hne); reflexivity|].
  split; [apply Map_keys_delete; exact Hk|]. repeat split.
Qed.

(** X9: [register] of a new id followed by [unregister] of it gives back
    the [Map] and the instance as they were; the record object that was
    made stays in the heap, unreferenced. *)
Theorem register_then_unregister (k : string) (combo : KeyCombo.t)
    (act : MacroAction World) (desc : option string) st :
  Map_has k (macros (this st)) = false ->
  fst (register k combo act desc st) = Normal k
  /\ fst (unregister k (snd (register k combo act desc st))) = Normal true
  /\ this (snd (unregister k (snd (register k combo act desc st)))) = this st
  /\ keydown (snd (unregister k (snd (register k combo act desc st)))) = keydown st
  /\ heap (snd (unregister k (snd (register k combo act desc st)))) =
       heap st ++ [{| id := k; keyCombo := combo; action := act;
                      description := desc; enabled := true |}].
Proof.
  intros Hhas. apply Map_has_false in Hhas.
  pose proof (register_state k combo act desc st) as Hreg. simpl in Hreg.
  rewrite Hhas in Hreg. destruct Hreg as (Hm & Hh & Hl & Hkd & Ho & Hf & _).
  destruct (unregister_state k (snd (register k combo act desc st)))
    as (Hm' & Hh' & Hl' & Hkd' & Ho' & Hf' & _).
  split.
  { unfold register, bind, gets, new_object, modify, ret. simpl. rewrite Hhas. simpl.
    rewrite debug_log_eq. reflexivity. }
  split.
  { rewrite unregister_run. unfold Map_has. rewrite Hm.
    rewrite <- (Map_set_fresh k (length (heap st)) _ Hhas), Map_get_set_eq. reflexivity. }
  split.
  { rewrite Hm, (Map_delete_app_fresh k _ _ Hhas) in Hm'.
    destruct (this (snd (unregister k (snd (register k combo act desc st))))) as [m o i f].
    destruct (this st) as [m0 o0 i0 f0]. simpl in *. congruence. }
  split; [congruence|]. congruence.
Qed.

(** X10: in a well-formed state, a registered id can be registered again
    once it is unregistered: the second [register] returns the id and
    files it last in the order of the [Map], under a new record object. *)
Theorem unregister_then_register (k : string) (combo : KeyCombo.t)
    (act : MacroAction World) (desc : option string) st :
  wf st ->
  Map_has k (macros (this st)) = true ->
  fst (register k combo act desc (snd (unregister k st))) = Normal k
  /\ Map_keys (macros (this (snd (register k combo act desc (snd (unregister k st)))))) =
       List.filter (fun k' => negb (String.eqb k k')) (Map_keys (macros (this st))) ++ [k]
  /\ fst (get k (snd (register k combo act desc (snd (unregister k st))))) =
       Normal (Some (length (heap st)))
  /\ heap (snd (register k combo act desc (snd (unregister k st)))) !! length (heap st) =
       Some {| id := k; keyCombo := combo; action := act;
               description := desc; enabled := true |}.
Proof.
  intros (Hk & _) Hhas.
  destruct (unregister_state k st) as (Hm & Hh & _).
  assert (Hnone : Map_get k (macros (this (snd (unregister k st)))) = None).
  { rewrite Hm. apply Map_get_delete_eq. exact Hk. }
  pose proof (register_state k combo act desc (snd (unregister k st))) as Hreg.
  simpl in Hreg. rewrite Hnone in Hreg. destruct Hreg as (Hm' & Hh' & _).
  split.
  { unfold register, bind, gets, new_object, modify, ret. simpl. rewrite Hnone. simpl.
    rewrite debug_log_eq. reflexivity. }
  split.
  { rewrite Hm', Hm. unfold Map_keys at 1. rewrite map_app. simpl.
    fold (Map_keys (Map_delete k (macros (this st)))).
    rewrite (Map_keys_delete k _ Hk). reflexivity. }
  split.
  { unfold get, gets. simpl. rewrite Hm', Hh.
    rewrite <- (Map_set_fresh k (length (heap st)) _ Hnone), Map_get_set_eq. reflexivity. }
  rewrite Hh', Hh. apply list_lookup_middle. reflexivity.
Qed.

Lemma In_Map_get {V : Type} (k : string) (v : V) (m : list (string * V)) :
  NoDup (Map_keys m) -> In (k, v) m -> Map_get k m = Some v.
Proof.
  unfold Map_keys. induction m as [|[k' v'] m IH]; simpl; [tauto|].
  intros Hnd. apply NoDup_cons in Hnd as [Hnin Hnd].
  destruct (String.eqb_spec k k') as [->|Hne].
  - intros [[= ->]|Hin]; [reflexivity|]. exfalso. apply Hnin.
    apply list_elem_of_In. apply (in_map fst) in Hin. exact Hin.
  - intros [[= -> _]|Hin]; [congruence|exact (IH Hnd Hin)].
Qed.

(** X12: [get] changes nothing, and in a well-formed state it agrees
    with [getAll]: it finds a reference exactly when the [Map] files it
    under that id, the reference is then one of the array of [getAll] and
    leads to the record that carries the id, and it finds nothing exactly
    when no record of that array carries the id. *)
Theorem get_agrees_with_getAll (k : string) st :
  wf st ->
  snd (get k st) = st
  /\ (forall l, fst (get k st) = Normal (Some l) <-> In (k, l) (macros (this st)))
  /\ (forall l, fst (get k st) = Normal (Some l) ->
        (exists snap, fst (getAll st) = Normal snap /\ In l snap)
        /\ exists r, heap st !! l = Some r /\ id r = k)
  /\ (fst (get k st) = Normal None <->
        forall snap l r, fst (getAll st) = Normal snap -> In l snap ->
                         heap st !! l = Some r -> id r <> k).
Proof.
  intros (Hk & Hv & Hrec). unfold get, getAll, gets. simpl.
  split; [reflexivity|]. split.
  { intros l. split.
    - intros [= Hl]. apply Map_get_In. exact Hl.
    - intros Hin. rewrite (In_Map_get _ _ _ Hk Hin). reflexivity. }
  split.
  { intros l [= Hl]. apply Map_get_In in Hl. split.
    - eexists. split; [reflexivity|]. eapply In_Map_values. exact Hl.
    - apply Hrec. exact Hl. }
  split.
  - intros [= Hnone] snap l r [= <-] Hin Hr Hid.
    apply in_map_iff in Hin as ([k' l'] & Heq & Hin). simpl in Heq. subst l'.
    destruct (Hrec k' l Hin) as (r' & Hr' & Hid'). rewrite Hr in Hr'.
    injection Hr' as <-. subst k'. subst k. apply (In_Map_get _ _ _ Hk) in Hin. congruence.
  - intros Hno. destruct (Map_get k (macros (this st))) as [l|] eqn:Hl; [|reflexivity].
    exfalso. apply Map_get_In in Hl. destruct (Hrec k l Hl) as (r & Hr & Hid).
    apply (Hno _ l r eq_refl); [eapply In_Map_values; exact Hl|exact Hr|exact Hid].
Qed.

Lemma Map_get_app_fresh {V : Type} (k k' : string) (v : V) (m : list (string * V)) :
  k' <> k -> Map_get k' m = None -> Map_get k' (m ++ [(k, v)]) = None.
Proof.
  intros Hne. induction m as [|[k0 v0] m IH]; simpl.
  - apply String.eqb_neq in Hne. rewrite Hne. reflexivity.
  - destruct (String.eqb k' k0); [discriminate|exact IH].
Qed.

Lemma removeEventListener_snoc (f : fnref) (ls : list fnref) :
  attached f ls = 0 -> removeEventListener f (ls ++ [f]) = ls.
Proof.
  unfold attached. induction ls as [|g ls IH]; simpl.
  - rewrite Nat.eqb_refl. reflexivity.
  - destruct (Nat.eq_dec g f) as [->|Hne]; [discriminate|].
    intros Hz. destruct (Nat.eqb_spec f g) as [->|_]; [congruence|].
    rewrite (IH Hz). reflexivity.
Qed.

(** X14: from a state that is not listening and in which the instance's
    callback is not attached, [start] followed by [stop] gives back the
    instance and the document's listeners as they were, in their
    order. *)
Theorem start_then_stop st :
  isListening (this st) = false ->
  attached (listenerFn (this st)) (keydown st) = 0 ->
  fst (start st) = Normal tt
  /\ fst (stop (snd (start st))) = Normal tt
  /\ this (snd (stop (snd (start st)))) = this st
  /\ keydown (snd (stop (snd (start st)))) = keydown st
  /\ heap (snd (stop (snd (start st)))) = heap st.
Proof.
  intros Hoff Hz.
  destruct (start_spec st) as (st1 & Hrun1 & _ & Hadd & Hl1 & Hf1 & Hm1 & Ho1 & Hh1).
  rewrite Hrun1. simpl.
  destruct (stop_spec st1) as (st2 & Hrun2 & _ & Hrem & Hl2 & Hf2 & Hm2 & Ho2 & Hh2).
  rewrite Hrun2. simpl.
  split; [reflexivity|]. split; [reflexivity|].
  split.
  { destruct (this st2) as [m o i f], (this st1) as [m1 o1 i1 f1],
      (this st) as [m0 o0 i0 f0]. simpl in *. congruence. }
  split; [|congruence].
  rewrite (Hrem Hl1), Hf1, (Hadd Hoff). unfold addEventListener.
  destruct (existsb (Nat.eqb (listenerFn (this st))) (keydown st)) eqn:Hex.
  - apply existsb_eqb_attached in Hex. lia.
  - apply removeEventListener_snoc. exact Hz.
Qed.

(** X15: [update] with no field supplied leaves every record as it was,
    and [update] with only [enabled] supplied writes the records as
    [enable] or [disable] of the id does; in all three cases the instance
    and the listeners stay. *)
Theorem update_degenerate (k : string) st :
  heap (snd (update k no_updates st)) = heap st
  /\ heap (snd (update k (only_enabled true) st)) = heap (snd (enable k st))
  /\ heap (snd (update k (only_enabled false) st)) = heap (snd (disable k st))
  /\ (forall u, this (snd (update k u st)) = this st
                /\ keydown (snd (update k u st)) = keydown st)
  /\ fst (update k no_updates st) = Normal (Map_has k (macros (this st))).
Proof.
  destruct (assign_state (fun k => update k no_updates) (Object_assign no_updates) k st)
    as (_ & Hh0 & _); [right; right; right; eauto|].
  destruct (assign_state (fun k => update k (only_enabled true))
              (Object_assign (only_enabled true)) k st)
    as (_ & Hh1 & _); [right; right; right; eauto|].
  destruct (assign_state (fun k => update k (only_enabled false))
              (Object_assign (only_enabled false)) k st)
    as (_ & Hh2 & _); [right; right; right; eauto|].
  destruct (assign_state enable (set_enabled true) k st) as (_ & He & _); [tauto|].
  destruct (assign_state disable (set_enabled false) k st) as (_ & Hd & _); [tauto|].
  split.
  { rewrite Hh0. destruct (Map_get k (macros (this st))); [|reflexivity].
    apply list_alter_id. intros []. reflexivity. }
  split; [rewrite Hh1, He; reflexivity|].
  split; [rewrite Hh2, Hd; reflexivity|].
  split.
  { intros u.
    destruct (assign_state (fun k => update k u) (Object_assign u) k st)
      as (Ht & _ & Hkd & _); [right; right; right; eauto|]. split; assumption. }
  apply (assign_run (fun k => update k no_updates) (Object_assign no_updates)).
  right. right. right. eauto.
Qed.
End RegistryPure.

Section RegistryMore.
Variable toLowerCase : string -> string.
Context {World : Type}.
Implicit Types (st : State World) (l : loc) (r : RegisteredMacro World).

(** X1: whatever its clients call, an instance keeps its ids distinct and
    its records distinct, and every id leads to a record that carries that
    id. *)
Theorem reachable_well_formed (opts : option OptionsLiteral)
    (cs : list (ApiCall World)) (st0 : State World) :
  wf (steps toLowerCase cs (snd (constructor opts st0))).
Proof. apply steps_wf. apply constructor_wf. Qed.

(** X2: whatever its clients call (registry methods and dispatches
    between the [start] and [stop] calls included), the listening flag is
    true exactly when the instance's callback is attached once to the
    document and false exactly when it is not attached. *)
Theorem reachable_listening (opts : option OptionsLiteral)
    (cs : list (ApiCall World)) (st0 : State World) :
  (isListening (this (steps toLowerCase cs (snd (constructor opts st0)))) = true <->
     attached (listenerFn (this (steps toLowerCase cs (snd (constructor opts st0)))))
       (keydown (steps toLowerCase cs (snd (constructor opts st0)))) = 1)
  /\ (isListening (this (steps toLowerCase cs (snd (constructor opts st0)))) = false <->
     attached (listenerFn (this (steps toLowerCase cs (snd (constructor opts st0)))))
       (keydown (steps toLowerCase cs (snd (constructor opts st0)))) = 0).
Proof.
  assert (Hinv : listening_inv (steps toLowerCase cs (snd (constructor opts st0)))).
  { apply steps_listening_inv. unfold listening_inv. simpl. apply fresh_fn_not_attached. }
  unfold listening_inv in Hinv.
  destruct (isListening (this (steps toLowerCase cs (snd (constructor opts st0)))));
    rewrite Hinv; split; split; congruence.
Qed.

(** X3: the configuration and the cached callback are fixed at
    construction: no call of a client changes them. *)
Theorem reachable_config (opts : option OptionsLiteral)
    (cs : list (ApiCall World)) (st0 : State World) :
  options (this (steps toLowerCase cs (snd (constructor opts st0)))) =
    options (this (snd (constructor opts st0)))
  /\ listenerFn (this (steps toLowerCase cs (snd (constructor opts st0)))) =
    listenerFn (this (snd (constructor opts st0))).
Proof. apply steps_config. Qed.

(** X6: after [disable] of a registered id no key-down event invokes
    that id's action, whatever its chord; after [enable] the action is
    invoked exactly on the events that are not from a text-entry element
    and that match the record's chord. *)
Theorem disabled_never_fires (k : string) st l r :
  Map_get k (macros (this st)) = Some l ->
  heap st !! l = Some r ->
  forall event,
    ~ In (Invoke l) (dispatch_trace toLowerCase event (snd (disable k st)))
    /\ (In (Invoke l) (dispatch_trace toLowerCase event (snd (enable k st))) <->
        from_text_entry toLowerCase event = false
        /\ matchesCombo toLowerCase event (keyCombo r) = true).
Proof.
  intros Hl Hr event.
  destruct (assign_state disable (set_enabled false) k st) as (Htd & Hhd & _); [tauto|].
  destruct (assign_state enable (set_enabled true) k st) as (Hte & Hhe & _); [tauto|].
  rewrite Hl in Hhd, Hhe.
  assert (Hin : forall st', this st' = this st ->
                  In l (Map_values (macros (this st')))).
  { intros st' ->. eapply In_Map_values. apply Map_get_In. exact Hl. }
  split.
  - intros Hran. apply Invoke_in_trace in Hran as [_ Hm].
    apply In_matching in Hm as [_ Hf]. unfold fires in Hf.
    rewrite Hhd, list_lookup_alter_eq, Hr in Hf. simpl in Hf.
    unfold triggers in Hf. simpl in Hf. discriminate.
  - split.
    + intros Hran. apply Invoke_in_trace in Hran as [Htag Hm]. split; [exact Htag|].
      apply In_matching in Hm as [_ Hf]. unfold fires in Hf.
      rewrite Hhe, list_lookup_alter_eq, Hr in Hf. simpl in Hf.
      unfold triggers in Hf. simpl in Hf. exact Hf.
    + intros [Htag Hm].
      destruct (handleKeyPress_spec toLowerCase event (snd (enable k st)) Htag)
        as (w & _ & Hinv & _).
      rewrite calls_In, Hinv, count_pos_In, In_matching. split; [apply Hin; exact Hte|].
      unfold fires. rewrite Hhe, list_lookup_alter_eq, Hr. simpl.
      unfold triggers. simpl. exact Hm.
Qed.

(** X8: in a well-formed state, after [unregister] of a registered id no
    key-down event invokes the action of the record the id referred to,
    while a reference to that record taken earlier still reads it. *)
Theorem unregistered_never_fires (k : string) st l :
  wf st ->
  Map_get k (macros (this st)) = Some l ->
  forall event,
    ~ In (Invoke l) (dispatch_trace toLowerCase event (snd (unregister k st)))
    /\ heap (snd (unregister k st)) !! l = heap st !! l.
Proof.
  intros (Hk & Hv & _) Hl event.
  destruct (unregister_state k st) as (Hm & Hh & _).
  split; [|rewrite Hh; reflexivity].
  intros Hran. apply Invoke_in_trace in Hran as [_ Hin].
  apply In_matching in Hin as [Hin _]. rewrite Hm in Hin.
  exact (Map_values_delete k l _ Hk Hv Hl Hin).
Qed.

(** X11: after [clear], [getAll] returns the empty array, every [get]
    finds nothing, the handler does nothing on any event, and every id
    can be registered; the listening flag, the listeners and the record
    objects are as they were. *)
Theorem clear_empties (st : State World) :
  fst (clear st) = Normal tt
  /\ fst (getAll (snd (clear st))) = Normal []
  /\ (forall k, fst (get k (snd (clear st))) = Normal None)
  /\ (forall event,
        handleKeyPress toLowerCase event (snd (clear st)) = (Normal tt, snd (clear st)))
  /\ (forall k combo act desc,
        fst (register k combo act desc (snd (clear st))) = Normal k)
  /\ isListening (this (snd (clear st))) = isListening (this st)
  /\ keydown (snd (clear st)) = keydown st
  /\ heap (snd (clear st)) = heap st.
Proof.
  destruct (clear_state st) as (Hm & Hh & Hl & Hkd & _).
  split. { unfold clear, bind, modify. simpl. rewrite debug_log_eq. reflexivity. }
  split. { unfold getAll, gets. simpl. rewrite Hm. reflexivity. }
  split. { intros k. unfold get, gets. simpl. rewrite Hm. reflexivity. }
  split.
  { intros event. destruct (from_text_entry toLowerCase event) eqn:Htag.
    - apply handleKeyPress_text_entry. exact Htag.
    - rewrite (handleKeyPress_exact toLowerCase event _ Htag), Hm. simpl.
      rewrite app_nil_r. destruct (snd (clear st)); reflexivity. }
  split.
  { intros k combo act desc. unfold register, bind, gets, new_object, modify, ret. simpl.
    rewrite Hm. simpl. rewrite debug_log_eq. reflexivity. }
  repeat split; assumption.
Qed.

Lemma register_all_from (gs : list (Registration World)) st :
  wf st ->
  NoDup (map reg_id gs) ->
  (forall g, In g gs -> Map_get (reg_id g) (macros (this st)) = None) ->
  Map_keys (macros (this (steps toLowerCase (map register_call gs) st))) =
    Map_keys (macros (this st)) ++ map reg_id gs
  /\ contents (steps toLowerCase (map register_call gs) st)
       (Map_values (macros (this (steps toLowerCase (map register_call gs) st)))) =
     contents st (Map_values (macros (this st))) ++ map (fun g => Some (new_record g)) gs.
Proof.
  revert st. induction gs as [|g gs IH]; intros st Hwf Hnd Hfresh.
  - simpl. rewrite !app_nil_r. split; reflexivity.
  - simpl in Hnd. apply NoDup_cons in Hnd as [Hnin Hnd].
    assert (Hg : Map_get (reg_id g) (macros (this st)) = None).
    { apply Hfresh. left. reflexivity. }
    pose proof (register_state (reg_id g) (reg_keyCombo g) (reg_action g)
                  (reg_description g) st) as Hreg.
    simpl in Hreg. rewrite Hg in Hreg. destruct Hreg as (Hm & Hh & _).
    set (st1 := snd (register (reg_id g) (reg_keyCombo g) (reg_action g)
                       (reg_description g) st)) in *.
    assert (Hwf1 : wf st1).
    { apply (step_wf toLowerCase (register_call g) st Hwf). }
    destruct (IH st1 Hwf1 Hnd) as (Hkeys & Hcont).
    { intros g' Hin. rewrite Hm. apply Map_get_app_fresh.
      - intros Heq. apply Hnin. apply list_elem_of_In. rewrite <- Heq.
        apply in_map. exact Hin.
      - apply Hfresh. right. exact Hin. }
    assert (Hc1 : contents st1 (Map_values (macros (this st1))) =
                  contents st (Map_values (macros (this st))) ++ [Some (new_record g)]).
    { rewrite Hm. unfold Map_values, contents. rewrite !map_app. simpl. f_equal.
      - apply map_ext_in. intros l Hin. rewrite Hh. apply lookup_app_l.
        pose proof (wf_refs_valid st Hwf) as Hall. rewrite List.Forall_forall in Hall.
        apply Hall. exact Hin.
      - rewrite Hh, list_lookup_middle by reflexivity. reflexivity. }
    simpl. fold st1. rewrite Hkeys, Hcont, Hc1, Hm.
    unfold Map_keys. rewrite !map_app. simpl. rewrite <- !app_assoc. simpl.
    split; reflexivity.
Qed.

(** X13: registering distinct ids on a new instance files them in the
    order of the calls: the ids of the [Map] are the ids of the calls in
    that order, and the records seen through [getAll] are the records made
    from the arguments, each enabled. *)
Theorem registration_order (opts : option OptionsLiteral)
    (gs : list (Registration World)) (st0 : State World) :
  NoDup (map reg_id gs) ->
  Map_keys (macros (this (steps toLowerCase (map register_call gs)
                            (snd (constructor opts st0))))) = map reg_id gs
  /\ (exists snap,
        fst (getAll (steps toLowerCase (map register_call gs)
                       (snd (constructor opts st0)))) = Normal snap
        /\ contents (steps toLowerCase (map register_call gs) (snd (constructor opts st0)))
             snap = map (fun g => Some (new_record g)) gs).
Proof.
  intros Hnd.
  destruct (register_all_from gs (snd (constructor opts st0))
              (constructor_wf opts st0) Hnd) as (Hkeys & Hcont).
  { intros g _. reflexivity. }
  split; [exact Hkeys|]. eexists. split; [reflexivity|]. exact Hcont.
Qed.
End RegistryMore.

Section DispatchMore.
Variable toLowerCase : string -> string.
Context {World : Type}.
Implicit Types (st : State World) (event : KeyboardEvent.t) (l : loc).

(** X16: the handler calls the actions in the order of the [Map]: the
    records whose action is called, in the order of the calls, are the
    enabled matching records in insertion order, and none on an event
    from a text-entry element. *)
Theorem dispatch_in_insertion_order event st :
  invoked (dispatch_trace toLowerCase event st) =
    if from_text_entry toLowerCase event then [] else matching toLowerCase event st.
Proof.
  destruct (from_text_entry toLowerCase event) eqn:Htag.
  - rewrite (dispatch_trace_text_entry _ _ _ Htag). reflexivity.
  - rewrite (dispatch_trace_exact _ _ _ Htag). apply invoked_loop_effects.
Qed.

(** X17: the handler changes neither the instance nor any record nor the
    listeners, and it leaves the host in the state the actions of the
    enabled matching records produce when run one after the other in
    insertion order, what a throwing action did before it threw
    included. *)
Theorem dispatch_runs_actions event st :
  this (snd (handleKeyPress toLowerCase event st)) = this st
  /\ heap (snd (handleKeyPress toLowerCase event st)) = heap st
  /\ keydown (snd (handleKeyPress toLowerCase event st)) = keydown st
  /\ world (snd (handleKeyPress toLowerCase event st)) =
       if from_text_entry toLowerCase event then world st
       else run_actions (heap st) (matching toLowerCase event st) (world st).
Proof.
  destruct (from_text_entry toLowerCase event) eqn:Htag.
  - rewrite (handleKeyPress_text_entry _ _ _ Htag). repeat split; reflexivity.
  - rewrite (handleKeyPress_exact _ _ _ Htag). simpl.
    repeat split; try reflexivity. apply world_loop_effects.
Qed.

(** X18: [event.preventDefault] is called in a dispatch exactly when the
    event is not from a text-entry element, [preventDefault] is truthy in
    the configuration and at least one enabled record matches; likewise
    [event.stopPropagation] with [stopPropagation]. *)
Theorem suppression_iff event st :
  (In EventPreventDefault (dispatch_trace toLowerCase event st) <->
     from_text_entry toLowerCase event = false
     /\ truthy (preventDefault (options (this st))) = true
     /\ matching toLowerCase event st <> [])
  /\ (In EventStopPropagation (dispatch_trace toLowerCase event st) <->
     from_text_entry toLowerCase event = false
     /\ truthy (stopPropagation (options (this st))) = true
     /\ matching toLowerCase event st <> []).
Proof.
  destruct (from_text_entry toLowerCase event) eqn:Htag.
  - rewrite (dispatch_trace_text_entry _ _ _ Htag).
    split; (split; [intros []|intros [Hf _]; discriminate]).
  - destruct (handleKeyPress_spec toLowerCase event st Htag) as (w & _ & _ & Hpd & Hsp & _).
    rewrite !calls_In, Hpd, Hsp.
    destruct (truthy (preventDefault (options (this st)))),
      (truthy (stopPropagation (options (this st))));
      destruct (matching toLowerCase event st) as [|l ls]; simpl;
      split; (split; [intros H; first [lia | repeat split; congruence]
                     |intros (_ & H1 & H2); first [discriminate | congruence | lia]]).
Qed.

Lemma ConsoleError_macro_effects (opts : MacroManagerOptions) l
    (r : RegisteredMacro World) w (msg : string) (err : JsError) :
  In (ConsoleError msg err) (fst (macro_effects opts l r w)) ->
  msg = error_message (id r) /\ fst (action r w) = Throw err.
Proof.
  unfold macro_effects. cbn [fst]. rewrite !in_app_iff.
  intros [H|[H|[H|[H|H]]]].
  - destruct (truthy (debug opts)); simpl in H; [destruct H as [H|[]]; discriminate|destruct H].
  - destruct (truthy (preventDefault opts)); simpl in H;
      [destruct H as [H|[]]; discriminate|destruct H].
  - destruct (truthy (stopPropagation opts)); simpl in H;
      [destruct H as [H|[]]; discriminate|destruct H].
  - destruct H as [H|[]]. discriminate.
  - destruct (fst (action r w)) as [[]|e]; [destruct H|].
    destruct H as [H|[]]. injection H as <- <-. split; reflexivity.
Qed.

Lemma ConsoleError_loop_effects event (opts : MacroManagerOptions)
    (h : list (RegisteredMacro World)) (ls : list loc) w (msg : string) (err : JsError) :
  In (ConsoleError msg err) (fst (loop_effects toLowerCase event opts h ls w)) ->
  exists l r w',
    In l (List.filter (fires toLowerCase event h) ls)
    /\ h !! l = Some r
    /\ msg = error_message (id r)
    /\ fst (action r w') = Throw err.
Proof.
  revert w. induction ls as [|l ls IH]; intros w; [intros []|].
  rewrite loop_effects_cons. cbn [List.filter].
  destruct (fires toLowerCase event h l) eqn:Hf.
  - unfold fires in Hf. destruct (h !! l) as [r|] eqn:Hr; [|discriminate].
    cbn [fst]. intros Hin. apply in_app_or in Hin as [Hin|Hin].
    + apply ConsoleError_macro_effects in Hin as [-> Hthrow].
      exists l, r, w. split; [left; reflexivity|]. repeat split; assumption.
    + destruct (IH _ Hin) as (l' & r' & w' & Hin' & Hrest).
      exists l', r', w'. split; [right; exact Hin'|exact Hrest].
  - intros Hin. destruct (IH _ Hin) as (l' & r' & w' & Hin' & Hrest).
    exists l', r', w'. split; [exact Hin'|exact Hrest].
Qed.

(** X19: the handler writes to [console.error] only for a throw: every
    error line of a dispatch carries the message for the id of an enabled
    matching record and the value that record's action threw. *)
Theorem console_error_only_from_throw event st (msg : string) (err : JsError) :
  In (ConsoleError msg err) (dispatch_trace toLowerCase event st) ->
  exists l r w,
    In l (matching toLowerCase event st)
    /\ heap st !! l = Some r
    /\ msg = error_message (id r)
    /\ fst (action r w) = Throw err.
Proof.
  destruct (from_text_entry toLowerCase event) eqn:Htag.
  - rewrite (dispatch_trace_text_entry _ _ _ Htag). intros [].
  - rewrite (dispatch_trace_exact _ _ _ Htag). apply ConsoleError_loop_effects.
Qed.

(** X20: in states reached from a new instance, a dispatch calls the
    action of a registered record once if the event is not from a
    text-entry element and the record is enabled and matches, and not at
    all otherwise: no action runs twice on one event. *)
Theorem reachable_invoked_once (opts : option OptionsLiteral)
    (cs : list (ApiCall World)) (st0 : State World) event (k : string) l
    (r : RegisteredMacro World) :
  In (k, l) (macros (this (steps toLowerCase cs (snd (constructor opts st0))))) ->
  heap (steps toLowerCase cs (snd (constructor opts st0))) !! l = Some r ->
  calls (Invoke l)
    (dispatch_trace toLowerCase event (steps toLowerCase cs (snd (constructor opts st0)))) =
    if from_text_entry toLowerCase event then 0
    else if triggers toLowerCase event r then 1 else 0.
Proof.
  intros Hin Hr. destruct (from_text_entry toLowerCase event) eqn:Htag.
  - rewrite (dispatch_trace_text_entry _ _ _ Htag). reflexivity.
  - apply (dispatch_invokes_once toLowerCase event _ k l r); try assumption.
    apply steps_wf. apply constructor_wf.
Qed.
End DispatchMore.

(** ** Properties of the console output *)

Section Console.
Variable toLowerCase : string -> string.
Context {World : Type}.
Implicit Types (st : State World) (event : KeyboardEvent.t) (l : loc).

Lemma debug_log_effects (msg : string) st st1 :
  effects st1 = effects st ->
  options (this st1) = options (this st) ->
  effects (snd (debug_log msg st1)) =
    effects st ++ (if truthy (debug (options (this st))) then [ConsoleLog msg] else []).
Proof.
  intros He Ho. rewrite debug_log_eq. simpl. rewrite Ho.
  destruct (truthy (debug (options (this st)))); simpl; rewrite He; [reflexivity|].
  rewrite app_nil_r. reflexivity.
Qed.

(** What a method that is not the handler adds to the effects. *)
Lemma method_effects (c : ApiCall World) st :
  (forall event, c <> CKeyDown event) ->
  world (step toLowerCase c st) = world st
  /\ exists log,
       effects (step toLowerCase c st) = effects st ++ log
       /\ (log = [] \/ (truthy (debug (options (this st))) = true
                        /\ exists msg, log = [ConsoleLog msg])).
Proof.
  intros Hc.
  assert (Hnil : exists log,
            effects st = effects st ++ log
            /\ (log = [] \/ (truthy (debug (options (this st))) = true
                             /\ exists msg, log = [ConsoleLog msg]))).
  { exists []. rewrite app_nil_r. split; [reflexivity|left; reflexivity]. }
  destruct c as [k combo act desc|k|k|k|k|k u| | | |event]; simpl.
  - pose proof (register_state k combo act desc st) as H. simpl in H.
    unfold register, bind, gets, new_object, modify, ret in *. simpl in *.
    destruct (Map_get k (macros (this st))); simpl in *; [split; [reflexivity|exact Hnil]|].
    rewrite debug_log_eq in *. simpl in *.
    split; [destruct (truthy _); reflexivity|].
    destruct (truthy (debug (options (this st)))) eqn:Hd; simpl.
    + eexists. split; [reflexivity|]. right. eauto.
    + exact Hnil.
  - unfold unregister, bind, gets, modify, ret. simpl.
    destruct (Map_has k (macros (this st))); simpl; [|split; [reflexivity|exact Hnil]].
    rewrite debug_log_eq. simpl.
    split; [destruct (truthy _); reflexivity|].
    destruct (truthy (debug (options (this st)))) eqn:Hd; simpl.
    + eexists. split; [reflexivity|]. right. eauto.
    + exact Hnil.
  - unfold enable, bind, gets, assign, modify, ret. simpl.
    destruct (Map_get k (macros (this st))); simpl; [|split; [reflexivity|exact Hnil]].
    rewrite debug_log_eq. simpl.
    split; [destruct (truthy _); reflexivity|].
    destruct (truthy (debug (options (this st)))) eqn:Hd; simpl.
    + eexists. split; [reflexivity|]. right. eauto.
    + exact Hnil.
  - unfold disable, bind, gets, assign, modify, ret. simpl.
    destruct (Map_get k (macros (this st))); simpl; [|split; [reflexivity|exact Hnil]].
    rewrite debug_log_eq. simpl.
    split; [destruct (truthy _); reflexivity|].
    destruct (truthy (debug (options (this st)))) eqn:Hd; simpl.
    + eexists. split; [reflexivity|]. right. eauto.
    + exact Hnil.
  - unfold toggle, bind, gets, assign, deref, modify, ret. simpl.
    destruct (Map_get k (macros (this st))); simpl; [|split; [reflexivity|exact Hnil]].
    rewrite debug_log_eq. simpl.
    split; [destruct (truthy _); reflexivity|].
    destruct (truthy (debug (options (this st)))) eqn:Hd; simpl.
    + eexists. split; [reflexivity|]. right. eauto.
    + exact Hnil.
  - unfold update, bind, gets, assign, modify, ret. simpl.
    destruct (Map_get k (macros (this st))); simpl; [|split; [reflexivity|exact Hnil]].
    rewrite debug_log_eq. simpl.
    split; [destruct (truthy _); reflexivity|].
    destruct (truthy (debug (options (this st)))) eqn:Hd; simpl.
    + eexists. split; [reflexivity|]. right. eauto.
    + exact Hnil.
  - unfold clear, bind, modify. simpl. rewrite debug_log_eq. simpl.
    split; [destruct (truthy _); reflexivity|].
    destruct (truthy (debug (options (this st)))) eqn:Hd; simpl.
    + eexists. split; [reflexivity|]. right. eauto.
    + exact Hnil.
  - unfold start, bind, gets, when, modify, ret. simpl.
    destruct (isListening (this st)); simpl; [split; [reflexivity|exact Hnil]|].
    rewrite debug_log_eq. simpl.
    split; [destruct (truthy _); reflexivity|].
    destruct (truthy (debug (options (this st)))) eqn:Hd; simpl.
    + eexists. split; [reflexivity|]. right. eauto.
    + exact Hnil.
  - unfold stop, bind, gets, when, modify, ret. simpl.
    destruct (isListening (this st)); simpl; [|split; [reflexivity|exact Hnil]].
    rewrite debug_log_eq. simpl.
    split; [destruct (truthy _); reflexivity|].
    destruct (truthy (debug (options (this st)))) eqn:Hd; simpl.
    + eexists. split; [reflexivity|]. right. eauto.
    + exact Hnil.
  - exfalso. exact (Hc event eq_refl).
Qed.

(** X21: a method other than the handler calls no action and touches no
    event: it leaves the host's state alone and adds to the effects at
    most one line of [console.log], and none unless [debug] is truthy. *)
Theorem methods_write_at_most_one_log (c : ApiCall World) st :
  (forall event, c <> CKeyDown event) ->
  world (step toLowerCase c st) = world st
  /\ exists log,
       effects (step toLowerCase c st) = effects st ++ log
       /\ (log = [] \/ (truthy (debug (options (this st))) = true
                        /\ exists msg, log = [ConsoleLog msg])).
Proof. apply method_effects. Qed.

Lemma macro_effects_no_log (opts : MacroManagerOptions) l (r : RegisteredMacro World) w :
  truthy (debug opts) = false ->
  forall e, In e (fst (macro_effects opts l r w)) -> is_ConsoleLog e = false.
Proof.
  intros Hd e. unfold macro_effects. cbn [fst]. rewrite Hd, !in_app_iff.
  intros [[]|[H|[H|[H|H]]]].
  - destruct (truthy (preventDefault opts)); simpl in H; [|destruct H].
    destruct H as [<-|[]]. reflexivity.
  - destruct (truthy (stopPropagation opts)); simpl in H; [|destruct H].
    destruct H as [<-|[]]. reflexivity.
  - destruct H as [<-|[]]. reflexivity.
  - destruct (fst (action r w)) as [[]|err]; [destruct H|].
    destruct H as [<-|[]]. reflexivity.
Qed.

Lemma loop_effects_no_log event (opts : MacroManagerOptions)
    (h : list (RegisteredMacro World)) (ls : list loc) w :
  truthy (debug opts) = false ->
  forall e, In e (fst (loop_effects toLowerCase event opts h ls w)) ->
            is_ConsoleLog e = false.
Proof.
  intros Hd. revert w. induction ls as [|l ls IH]; intros w e; [intros []|].
  rewrite loop_effects_cons.
  destruct (fires toLowerCase event h l); [|apply IH].
  destruct (h !! l) as [r|]; [|apply IH].
  cbn [fst]. intros Hin. apply in_app_or in Hin as [Hin|Hin].
  - exact (macro_effects_no_log opts l r w Hd e Hin).
  - exact (IH _ e Hin).
Qed.

Lemma step_no_log (c : ApiCall World) st :
  truthy (debug (options (this st))) = false ->
  forall e, In e (effects (step toLowerCase c st)) -> is_ConsoleLog e = true ->
            In e (effects st).
Proof.
  intros Hd e Hin Hlog.
  assert (Hmethod : (forall event, c <> CKeyDown event) -> In e (effects st)).
  { intros Hc. destruct (method_effects c st Hc) as (_ & log & Heff & [->|[Hon _]]).
    - rewrite Heff, app_nil_r in Hin. exact Hin.
    - congruence. }
  destruct c as [k combo act desc|k|k|k|k|k u| | | |event];
    try (apply Hmethod; intros ev; discriminate).
  simpl in Hin. destruct (from_text_entry toLowerCase event) eqn:Htag.
  - rewrite (handleKeyPress_text_entry _ _ _ Htag) in Hin. exact Hin.
  - rewrite (handleKeyPress_exact _ _ _ Htag) in Hin. simpl in Hin.
    apply in_app_or in Hin as [Hin|Hin]; [exact Hin|].
    rewrite (loop_effects_no_log _ _ _ _ _ Hd e Hin) in Hlog. discriminate.
Qed.

(** X22: an instance constructed with [debug] omitted, false or
    [undefined] never writes to [console.log]: whatever its clients call,
    dispatches included, every [console.log] line among the effects was
    there before the instance was constructed. *)
Theorem debug_off_never_logs (opts : option OptionsLiteral)
    (cs : list (ApiCall World)) (st0 : State World) :
  truthy (debug (options (this (snd (constructor opts st0))))) = false ->
  forall e,
    In e (effects (steps toLowerCase cs (snd (constructor opts st0)))) ->
    is_ConsoleLog e = true ->
    In e (effects st0).
Proof.
  intros Hd.
  assert (Hgen : forall cs st,
            truthy (debug (options (this st))) = false ->
            forall e, In e (effects (steps toLowerCase cs st)) -> is_ConsoleLog e = true ->
                      In e (effects st)).
  { clear. intros cs. induction cs as [|c cs IH]; intros st Hd e Hin Hlog; [exact Hin|].
    simpl in Hin. apply (step_no_log c st Hd e); [|exact Hlog].
    apply IH; [|exact Hin|exact Hlog].
    destruct (step_config toLowerCase c st) as [-> _]. exact Hd. }
  intros e Hin Hlog. exact (Hgen cs _ Hd e Hin Hlog).
Qed.

(** X23: [register] writes to the console only when it succeeds in debug
    mode, and then one line that quotes the id and the label
    [getComboKey] gives the chord. *)
Theorem register_logs_label (k : string) (combo : KeyCombo.t)
    (act : MacroAction World) (desc : option string) st :
  effects (snd (register k combo act desc st)) =
    effects st ++
    (if Map_has k (macros (this st)) then []
     else if truthy (debug (options (this st)))
          then [ConsoleLog (registered_message k combo)] else []).
Proof.
  unfold register, Map_has, bind, gets, new_object, modify, ret. simpl.
  destruct (Map_get k (macros (this st))); simpl; [rewrite app_nil_r; reflexivity|].
  rewrite debug_log_eq. simpl.
  destruct (truthy (debug (options (this st)))); simpl; [reflexivity|].
  rewrite app_nil_r. reflexivity.
Qed.
End Console.

(** ** The label of a chord *)

(** X24: the label of a chord names the modifiers whose flag is truthy,
    in the order Ctrl, Alt, Shift, Meta, and then the key: two chords
    whose keys hold no [+] have the same label exactly when they have the
    same key and the same four flags, an absent flag counting as
    false. *)
Theorem getComboKey_identifies_chord (c1 c2 : KeyCombo.t) :
  has_plus (KeyCombo.key c1) = false ->
  has_plus (KeyCombo.key c2) = false ->
  getComboKey c1 = getComboKey c2 <->
    KeyCombo.key c1 = KeyCombo.key c2
    /\ truthy (KeyCombo.ctrl c1) = truthy (KeyCombo.ctrl c2)
    /\ truthy (KeyCombo.alt c1) = truthy (KeyCombo.alt c2)
    /\ truthy (KeyCombo.shift c1) = truthy (KeyCombo.shift c2)
    /\ truthy (KeyCombo.meta c1) = truthy (KeyCombo.meta c2).
Proof.
  destruct c1 as [k1 a1 b1 d1 e1], c2 as [k2 a2 b2 d2 e2]. unfold getComboKey. simpl.
  intros Hp1 Hp2. split.
  - destruct (truthy a1), (truthy b1), (truthy d1), (truthy e1),
      (truthy a2), (truthy b2), (truthy d2), (truthy e2);
      cbv [String.append]; intros Heq; simplify_eq; simpl in *;
      first [discriminate | repeat split; reflexivity].
  - intros (-> & -> & -> & -> & ->). reflexivity.
Qed.

(** ** The further properties at concrete instances *)

Lemma save_registered_wf : wf save_registered.
Proof. apply (steps_wf lower). apply constructor_wf. Defined.

Lemma set_flag_present_witness :
  Map_get "save" (macros (this save_registered)) = Some 0
  /\ heap save_registered !! 0 = Some save_record
  /\ fst (toggle "save" save_registered) = Normal true
  /\ enabled <$> heap (snd (toggle "save" save_registered)) !! 0 = Some false.
Proof.
  split; [reflexivity|]. split; [reflexivity|].
  destruct (set_flag_present "save" save_registered 0 save_record eq_refl eq_refl
              toggle false) as (Hret & _ & Hrec & _).
  { right. right. split; reflexivity. }
  split; [exact Hret|]. rewrite Hrec. reflexivity.
Defined.

Lemma disabled_never_fires_witness :
  Map_get "save" (macros (this save_registered)) = Some 0
  /\ ~ In (Invoke 0)
         (dispatch_trace lower (key_event "s" true "DIV")
            (snd (disable "save" save_registered)))
  /\ In (Invoke 0)
        (dispatch_trace lower (key_event "S" true "DIV")
           (snd (enable "save" (snd (disable "save" save_registered))))).
Proof.
  split; [reflexivity|]. split.
  - exact (proj1 (disabled_never_fires lower "save" save_registered 0 save_record
                    eq_refl eq_refl (key_event "s" true "DIV"))).
  - apply (proj2 (disabled_never_fires lower "save" (snd (disable "save" save_registered)) 0
                    (set_enabled false save_record) eq_refl eq_refl
                    (key_event "S" true "DIV"))).
    split; reflexivity.
Defined.

Lemma unregister_present_witness :
  Map_has "save" (macros (this save_registered)) = true
  /\ fst (unregister "save" save_registered) = Normal true
  /\ fst (get "save" (snd (unregister "save" save_registered))) = Normal None.
Proof.
  split; [reflexivity|].
  destruct (unregister_present "save" save_registered save_registered_wf eq_refl)
    as (Hret & Hgone & _).
  split; assumption.
Defined.

Lemma unregistered_never_fires_witness :
  Map_get "save" (macros (this save_registered)) = Some 0
  /\ ~ In (Invoke 0)
         (dispatch_trace lower (key_event "s" true "DIV")
            (snd (unregister "save" save_registered)))
  /\ heap (snd (unregister "save" save_registered)) !! 0 = Some save_record.
Proof.
  split; [reflexivity|].
  destruct (unregistered_never_fires lower "save" save_registered 0 save_registered_wf
              eq_refl (key_event "s" true "DIV")) as [Hnot Hkept].
  split; [exact Hnot|]. rewrite Hkept. reflexivity.
Defined.

Lemma register_then_unregister_witness :
  Map_has "open" (macros (this save_registered)) = false
  /\ this (snd (unregister "open"
                  (snd (register "open" (chord "o" true) boom None save_registered))))
       = this save_registered.
Proof.
  split; [reflexivity|].
  destruct (register_then_unregister "open" (chord "o" true) boom None save_registered
              eq_refl) as (_ & _ & Hthis & _).
  exact Hthis.
Defined.

Lemma unregister_then_register_witness :
  Map_has "first" (macros (this (two_on_x None))) = true
  /\ Map_keys (macros (this (snd (register "first" (chord "y" false) bump None
                                     (snd (unregister "first" (two_on_x None)))))))
       = ["second"; "first"].
Proof.
  split; [reflexivity|].
  destruct (unregister_then_register "first" (chord "y" false) bump None (two_on_x None))
    as (_ & Hkeys & _).
  - apply (steps_wf lower). apply constructor_wf.
  - reflexivity.
  - rewrite Hkeys. reflexivity.
Defined.

Lemma get_agrees_with_getAll_witness :
  fst (get "second" (two_on_x None)) = Normal (Some 1)
  /\ In ("second", 1) (macros (this (two_on_x None)))
  /\ fst (get "third" (two_on_x None)) = Normal None.
Proof.
  assert (Hwf : wf (two_on_x None)).
  { apply (steps_wf lower). apply constructor_wf. }
  destruct (get_agrees_with_getAll "second" (two_on_x None) Hwf) as (_ & Hiff & _).
  split; [reflexivity|]. split; [apply Hiff; reflexivity|reflexivity].
Defined.

Lemma registration_order_witness :
  NoDup (map reg_id save_and_open)
  /\ Map_keys (macros (this (steps lower (map register_call save_and_open)
                              (snd (constructor None blank))))) = ["save"; "open"].
Proof.
  assert (Hnd : NoDup (map reg_id save_and_open)).
  { apply NoDup_cons_2; [|apply NoDup_singleton].
    intros Hin. apply list_elem_of_In in Hin. destruct Hin as [H|[]]. discriminate. }
  split; [exact Hnd|].
  destruct (registration_order lower None save_and_open blank Hnd) as (Hkeys & _).
  exact Hkeys.
Defined.

Lemma start_then_stop_witness :
  isListening (this (snd (constructor None busy_document))) = false
  /\ attached (listenerFn (this (snd (constructor None busy_document))))
       (keydown (snd (constructor None busy_document))) = 0
  /\ keydown (snd (stop (snd (start (snd (constructor None busy_document)))))) = [7; 3].
Proof.
  split; [reflexivity|]. split; [reflexivity|].
  destruct (start_then_stop (snd (constructor None busy_document)) eq_refl eq_refl)
    as (_ & _ & _ & Hkd & _).
  exact Hkd.
Defined.

Lemma console_error_only_from_throw_witness :
  In (ConsoleError (error_message "first") (Error "Test error"))
     (dispatch_trace lower (key_event "x" false "DIV") (two_on_x None))
  /\ exists l r w,
       In l (matching lower (key_event "x" false "DIV") (two_on_x None))
       /\ heap (two_on_x None) !! l = Some r
       /\ error_message "first" = error_message (id r)
       /\ fst (action r w) = Throw (Error "Test error").
Proof.
  assert (Hin : In (ConsoleError (error_message "first") (Error "Test error"))
                  (dispatch_trace lower (key_event "x" false "DIV") (two_on_x None))).
  { right. right. left. reflexivity. }
  split; [exact Hin|].
  exact (console_error_only_from_throw lower (key_event "x" false "DIV") (two_on_x None)
           _ _ Hin).
Defined.

Lemma reachable_invoked_once_witness :
  In ("save", 0) (macros (this save_registered))
  /\ calls (Invoke 0) (dispatch_trace lower (key_event "S" true "DIV") save_registered) = 1.
Proof.
  split; [left; reflexivity|].
  exact (reachable_invoked_once lower None
           [CRegister "save" (chord "s" true) bump (Some "Save the current document")]
           blank (key_event "S" true "DIV") "save" 0 save_record
           (or_introl eq_refl) eq_refl).
Defined.

Lemma methods_write_at_most_one_log_witness :
  (forall event, CToggle (World := nat) "save" <> CKeyDown event)
  /\ world (step lower (CToggle "save") save_registered) = world save_registered
  /\ effects (step lower (CToggle "save") save_registered) = effects save_registered.
Proof.
  assert (Hc : forall event, CToggle (World := nat) "save" <> CKeyDown event).
  { intros event. discriminate. }
  split; [exact Hc|].
  destruct (methods_write_at_most_one_log lower (CToggle "save") save_registered Hc)
    as (Hw & _).
  split; [exact Hw|reflexivity].
Defined.

Lemma debug_off_never_logs_witness :
  truthy (debug (options (this (snd (constructor None blank))))) = false
  /\ forall e,
       In e (effects (steps lower [CStart; CKeyDown (key_event "x" false "DIV"); CClear]
                        (two_on_x None))) ->
       is_ConsoleLog e = true -> False.
Proof.
  split; [reflexivity|]. intros e Hin Hlog.
  exact (debug_off_never_logs lower None
           [CRegister "first" (chord "x" false) boom None;
            CRegister "second" (chord "x" false) bump None;
            CStart; CKeyDown (key_event "x" false "DIV"); CClear]
           blank eq_refl e Hin Hlog).
Defined.

Lemma getComboKey_identifies_chord_witness :
  has_plus "s" = false
  /\ getComboKey (chord "s" true) =
       getComboKey {| KeyCombo.key := "s"; KeyCombo.ctrl := Some true;
                      KeyCombo.alt := Some false; KeyCombo.shift := None;
                      KeyCombo.meta := Some false |}.
Proof.
  split; [reflexivity|].
  apply (proj2 (getComboKey_identifies_chord (chord "s" true)
                  {| KeyCombo.key := "s"; KeyCombo.ctrl := Some true;
                     KeyCombo.alt := Some false; KeyCombo.shift := None;
                     KeyCombo.meta := Some false |} eq_refl eq_refl)).
  repeat split.
Defined.
